(** * bloat: per-directory disk usage totals

    A shallow embedding of [main.go] (package main of lpar/bloat) and the
    properties of its accumulator.

    Layout: the Go library pieces the program calls ([path/filepath] on a
    Unix host, [sort.Slice], [filepath.Walk]) come first, then the program
    itself ([DirInfo], [Bloat], [NewBloat], [Sort], [AddBloat], [AddFile],
    [Scan], [Report], [main]), then the vocabulary of the properties, then
    the lemmas and theorems. *)

From Stdlib Require Import ZArith Lia Bool Ascii Sorted.
From stdpp Require Import gmap strings list fin_maps.

(** ** int64

    [DirInfo.Bytes] is a Go [int64]: a value is a [Z] in the 64-bit signed
    range and [+=] wraps around. *)

Definition wrap64 (z : Z) : Z := ((z + 2 ^ 63) mod 2 ^ 64 - 2 ^ 63)%Z.
Definition add64 (x y : Z) : Z := wrap64 (x + y).
Definition int64 (z : Z) : Prop := (- 2 ^ 63 <= z < 2 ^ 63)%Z.

(** ** path/filepath (Unix)

    [filepath.Dir] is the parent function of [AddFile]. Go strings are byte
    sequences: the functions work on [list ascii], and [Clean] and [Dir]
    wrap them for [string]. There is no volume name on Unix, and the
    separator is the slash. *)

Module filepath.

Definition Separator : ascii := "/"%char.

(** [os.IsPathSeparator] *)
Definition IsPathSeparator (c : ascii) : bool := Ascii.eqb Separator c.

Definition is_dot (c : ascii) : bool := Ascii.eqb c "."%char.

(** [lazybuf]: the output of [Clean] is the buffer up to its write index
    [w]. The model keeps those [w] bytes as a list, so [w] is its length,
    [append] adds at the end and [index i] reads byte [i]. *)
Definition index (buf : list ascii) (i : nat) : ascii := nth i buf "000"%char.

(** The loop of the [..] case, entered after [out.w--]:
    [for out.w > dotdot && !os.IsPathSeparator(out.index(out.w)) { out.w-- }].
    The result is the final write index. *)
Fixpoint backtrack (buf : list ascii) (dotdot w : nat) : nat :=
  match w with
  | 0 => 0
  | S w' =>
      if (dotdot <? w)%nat && negb (IsPathSeparator (index buf w))
      then backtrack buf dotdot w' else w
  end.

(** [r == n || os.IsPathSeparator(path[r])] for the bytes still to read. *)
Definition end_or_sep (rest : list ascii) : bool :=
  match rest with
  | [] => true
  | c :: _ => IsPathSeparator c
  end.

(** The copy loop of the default case:
    [for ; r < n && !os.IsPathSeparator(path[r]); r++ { out.append(path[r]) }].
    Returns the bytes copied and the bytes left. *)
Fixpoint element (rest : list ascii) : list ascii * list ascii :=
  match rest with
  | [] => ([], [])
  | c :: rest' =>
      if IsPathSeparator c then ([], rest)
      else let '(e, r) := element rest' in (c :: e, r)
  end.

(** The main loop of [Clean], [for r < n { switch { ... } }]. [rest] is
    [path[r:]]; every turn reads at least one byte, so [len(path)] turns
    are enough and the model takes that as [fuel]. *)
Fixpoint clean_loop (fuel : nat) (rooted : bool) (rest out : list ascii)
    (dotdot : nat) : list ascii :=
  match fuel, rest with
  | 0, _ | _, [] => out
  | S fuel', c :: rest1 =>
      if IsPathSeparator c then
        (* empty path element *)
        clean_loop fuel' rooted rest1 out dotdot
      else if is_dot c && end_or_sep rest1 then
        (* . element *)
        clean_loop fuel' rooted rest1 out dotdot
      else if is_dot c && is_dot (hd "000"%char rest1) && end_or_sep (tl rest1) then
        (* .. element: remove to last separator *)
        let rest2 := tl rest1 in
        if (dotdot <? length out)%nat then
          (* can backtrack *)
          let w := backtrack out dotdot (length out - 1) in
          clean_loop fuel' rooted rest2 (take w out) dotdot
        else if negb rooted then
          (* cannot backtrack, but not rooted, so append .. element *)
          let out1 := if (0 <? length out)%nat then out ++ [Separator] else out in
          let out2 := out1 ++ ["."%char; "."%char] in
          clean_loop fuel' rooted rest2 out2 (length out2)
        else
          clean_loop fuel' rooted rest2 out dotdot
      else
        (* real path element: add slash if needed, copy element *)
        let out1 :=
          if (rooted && negb (length out =? 1)%nat)
             || (negb rooted && negb (length out =? 0)%nat)
          then out ++ [Separator] else out in
        let '(e, rest') := element rest in
        clean_loop fuel' rooted rest' (out1 ++ e) dotdot
  end.

(** [filepath.Clean] on bytes. A rooted path starts the buffer with the
    separator and reads from index 1 with [dotdot = 1]. *)
Definition clean (path : list ascii) : list ascii :=
  match path with
  | [] => ["."%char]
  | c :: rest =>
      let rooted := IsPathSeparator c in
      let out :=
        if rooted then clean_loop (length path) true rest [Separator] 1
        else clean_loop (length path) false path [] 0 in
      (* Turn empty string into "." *)
      if (length out =? 0)%nat then ["."%char] else out
  end.

(** The scan of [Dir], [i := len(path) - 1; for i >= 0 &&
    !os.IsPathSeparator(path[i]) { i-- }], started at [n = i + 1]; the
    result is [i + 1]. *)
Fixpoint last_sep (path : list ascii) (n : nat) : nat :=
  match n with
  | 0 => 0
  | S i => if IsPathSeparator (index path i) then n else last_sep path i
  end.

(** [filepath.Dir] on bytes: [Clean(path[:i+1])]. *)
Definition dir (path : list ascii) : list ascii :=
  clean (take (last_sep path (length path)) path).

Definition Clean (path : string) : string :=
  String.string_of_list_ascii (clean (String.list_ascii_of_string path)).

Definition Dir (path : string) : string :=
  String.string_of_list_ascii (dir (String.list_ascii_of_string path)).

End filepath.

(** ** sort.Slice

    The library sorts short slices by insertion: element [i] is swapped
    towards the front while [less(j, j-1)] holds. [bubble] is that inner
    loop on the already sorted prefix, held last element first. Elements
    are compared through [less] on their values. *)

Fixpoint bubble {A} (less : A → A → bool) (x : A) (sorted : list A) : list A :=
  match sorted with
  | [] => [x]
  | y :: sorted' => if less x y then y :: bubble less x sorted' else x :: sorted
  end.

Definition sort_Slice {A} (less : A → A → bool) (data : list A) : list A :=
  rev (fold_left (λ sorted x, bubble less x sorted) data []).

(** ** The accumulator *)

(** [DirInfo] stores the amount of file bloat under a single directory. *)
Record DirInfo := mkDirInfo { Path : string; Bytes : Z }.

(** [Bloat]. [DirMap] and [Dirs] hold pointers [*DirInfo]; the records live
    in [heap], in allocation order, and a pointer is an index into it, so
    that a record reached through [Dirs] is the very record of the map. *)
Record Bloat := mkBloat {
  heap : list DirInfo;
  DirMap : gmap string nat;
  Dirs : list nat;
  Abs : bool
}.

Definition NewBloat (absmode : bool) : Bloat :=
  {| heap := []; DirMap := ∅; Dirs := []; Abs := absmode |}.

(** Reading through a pointer. Go has no dangling pointers; the default
    only makes the function total. *)
Definition deref (h : list DirInfo) (p : nat) : DirInfo :=
  default {| Path := ""; Bytes := 0 |} (h !! p).

(** [info.Bytes += bytes] *)
Definition add_bytes (bytes : Z) (info : DirInfo) : DirInfo :=
  {| Path := Path info; Bytes := add64 (Bytes info) bytes |}.

Definition AddBloat (b : Bloat) (dir : string) (bytes : Z) : Bloat :=
  match DirMap b !! dir with
  | None =>
      let info := length (heap b) in
      {| heap := heap b ++ [ {| Path := dir; Bytes := bytes |} ];
         DirMap := <[dir := info]> (DirMap b);
         Dirs := Dirs b; Abs := Abs b |}
  | Some info =>
      {| heap := alter (add_bytes bytes) info (heap b);
         DirMap := DirMap b; Dirs := Dirs b; Abs := Abs b |}
  end.

(** The [for] loop of [AddFile]; [None] when [fuel] turns of the loop body
    did not reach the [break]. *)
Fixpoint AddFile_loop (fuel : nat) (b : Bloat) (dir ldir : string) (bytes : Z)
    : option Bloat :=
  match fuel with
  | 0 => None
  | S fuel' =>
      let dir := filepath.Dir dir in
      if decide (ldir = dir) then Some b
      else AddFile_loop fuel' (AddBloat b dir bytes) dir dir bytes
  end.

(** The number of separators in a path, and the depth of a path: the
    number of its slash-separated components, as
    [len(strings.Split(path, "/"))] counts them. *)
Definition slashes (path : list ascii) : nat :=
  count_occ Ascii.ascii_dec path filepath.Separator.

Definition depth (path : string) : nat :=
  S (slashes (String.list_ascii_of_string path)).

(** [AddFile], run with one turn more than the depth of the path;
    [AddFile_loop_terminates] shows that the loop has left by then. *)
Definition AddFile (b : Bloat) (path : string) (bytes : Z) : Bloat :=
  default b (AddFile_loop (S (depth path)) b path path bytes).

(** [Sort]. [range b.DirMap] visits the entries in an unspecified order:
    [Sort_from] takes the order as a list, [Sort] uses the order of
    [map_to_list]. *)
Definition bloatier (h : list DirInfo) (x y : nat) : bool :=
  (Bytes (deref h y) <? Bytes (deref h x))%Z.

Definition Sort_from (b : Bloat) (order : list (string * nat)) : Bloat :=
  {| heap := heap b; DirMap := DirMap b;
     Dirs := sort_Slice (bloatier (heap b)) (snd <$> order);
     Abs := Abs b |}.

Definition Sort (b : Bloat) : Bloat := Sort_from b (map_to_list (DirMap b)).

(** ** The process: output, panics, the walk *)

Inductive stdout_line :=
  | Progress (path : string)              (* fmt.Println(path) *)
  | Ranked (bytes : Z) (path : string)    (* fmt.Printf("%6s %s\n", bs, info.Path) *)
  | Usage (prog : string).                (* the text of help() *)

Inductive stderr_line :=
  | CantProcess (path perr : string)      (* "can't process %s: %v\n" *)
  | ErrorScanning (basedir werr : string). (* "error scanning %s: %v\n" *)

Record World := mkWorld {
  bloat : Bloat;
  stdout : list stdout_line;
  stderr : list stderr_line
}.

(** A call returns a value or panics; an error value is its message. *)
Inductive outcome (A : Type) :=
  | Returns (a : A)
  | Panics (v : option string).
Arguments Returns {A} a.
Arguments Panics {A} v.

Definition M (A : Type) : Type := World → World * outcome A.

#[global] Instance M_ret : MRet M := λ A a w, (w, Returns a).
#[global] Instance M_bind : MBind M := λ A B f m w,
  match m w with
  | (w', Returns a) => f a w'
  | (w', Panics v) => (w', Panics v)
  end.

Definition panic {A} (v : option string) : M A := λ w, (w, Panics v).
Definition print (l : stdout_line) : M unit := λ w,
  ({| bloat := bloat w; stdout := stdout w ++ [l]; stderr := stderr w |}, Returns tt).
Definition eprint (l : stderr_line) : M unit := λ w,
  ({| bloat := bloat w; stdout := stdout w; stderr := stderr w ++ [l] |}, Returns tt).
Definition get_bloat : M Bloat := λ w, (w, Returns (bloat w)).
Definition set_bloat (b : Bloat) : M unit := λ w,
  ({| bloat := b; stdout := stdout w; stderr := stderr w |}, Returns tt).

(** What the host tells the program about one entry: the arguments of one
    call of the walk function, and the answers [filepath.Abs(path)] and
    [filepath.Rel(basedir, path)] would give for it. *)
Record FileInfo := mkFileInfo { Size : Z; IsDir : bool }.

Inductive resolved :=
  | Resolved (fdir : string)
  | Failed (perr : string).

Record Visit := mkVisit {
  v_path : string;
  v_info : FileInfo;
  v_err : option string;
  v_Abs : resolved;
  v_Rel : resolved
}.

(** [filepath.Walk]: the calls it would make, in order, as long as the
    function returns nil; the first error returned ends the walk and is
    its result. (The function below never returns [SkipDir] of its own.) *)
Fixpoint Walk (calls : list Visit) (fn : Visit → M (option string))
    : M (option string) :=
  match calls with
  | [] => mret None
  | v :: calls' =>
      err ← fn v;
      match err with
      | Some e => mret (Some e)
      | None => Walk calls' fn
      end
  end.

(** The function literal that [Scan] passes to [filepath.Walk]. *)
Definition walkFn (v : Visit) : M (option string) :=
  match v_err v with
  | Some err => mret (Some err)
  | None =>
      print (Progress (v_path v));;
      b ← get_bloat;
      match (if Abs b then v_Abs v else v_Rel v) with
      | Failed perr =>
          eprint (CantProcess (v_path v) perr);;
          panic None                      (* panic(err), and err is nil here *)
      | Resolved fdir =>
          b ← get_bloat;
          set_bloat (AddFile b fdir (Size (v_info v)));;
          mret None
      end
  end.

Section Host.

(** The file system, as [filepath.Walk] reports it from a base directory. *)
Variable fs : string → list Visit.

Definition Scan (basedir : string) : M unit :=
  werr ← Walk (fs basedir) walkFn;
  match werr with
  | Some e => eprint (ErrorScanning basedir e)
  | None => mret tt
  end.

Fixpoint scan_all (args : list string) : M unit :=
  match args with
  | [] => mret tt
  | arg :: args' => Scan arg;; scan_all args'
  end.

Fixpoint report_lines (h : list DirInfo) (dirs : list nat) : M unit :=
  match dirs with
  | [] => mret tt
  | info :: dirs' =>
      print (Ranked (Bytes (deref h info)) (Path (deref h info)));;
      report_lines h dirs'
  end.

Definition Report : M unit :=
  b ← get_bloat; report_lines (heap b) (Dirs b).

Definition help (prog : string) : M unit := print (Usage prog).

(** [main], with [os.Args = prog :: args]. *)
Definition main (prog : string) (args : list string) : M unit :=
  match args with
  | [] => help prog
  | helpp :: _ =>
      if bool_decide (helpp = "--help" ∨ helpp = "-h" ∨ helpp = "/?") then help prog
      else
        let absmode := (1 <? length args)%nat in
        set_bloat (NewBloat absmode);;
        scan_all args;;
        b ← get_bloat;
        set_bloat (Sort b);;
        Report
  end.

End Host.

(** The process starts with nothing printed. *)
Definition boot : World :=
  {| bloat := NewBloat false; stdout := []; stderr := [] |}.

(** The text of a line on the error stream. *)
Definition newline : string := String (ascii_of_nat 10) EmptyString.

Definition stderr_text (l : stderr_line) : string :=
  match l with
  | CantProcess path perr => "can't process " +:+ path +:+ ": " +:+ perr +:+ newline
  | ErrorScanning basedir werr => "error scanning " +:+ basedir +:+ ": " +:+ werr +:+ newline
  end.

(** ** Vocabulary of the proofs about [filepath] *)

(** Whether the last byte read is a separator, [pre] telling it for the
    bytes before [rest]. *)
Definition ends_sep (pre : bool) (rest : list ascii) : bool :=
  fold_left (λ _ c, filepath.IsPathSeparator c) rest pre.

(** The accounting of [Clean]: every separator in the buffer is paid for by
    a separator already read, and one more is in hand when the last byte
    read is a separator. The empty buffer and the lone root owe nothing. *)
Definition paid (rooted : bool) (out : list ascii) (pre : bool) (c : nat) : Prop :=
  out = [] ∨ (rooted = true ∧ out = [filepath.Separator])
  ∨ slashes out + (if pre then 1 else 0) ≤ c.

(** The measure that [Dir] decreases: zero at the two fixed points,
    otherwise the number of components. *)
Definition mu (path : list ascii) : nat :=
  if bool_decide (path = ["."%char] ∨ path = [filepath.Separator]) then 0
  else S (slashes path).

(** A path element that [Clean] keeps as it is: not empty, without a
    separator, and neither [.] nor [..]. *)
Definition name (c : list ascii) : Prop :=
  c ≠ [] ∧ slashes c = 0 ∧ c ≠ ["."%char] ∧ c ≠ ["."%char; "."%char].

(** Elements joined by separators, and elements each followed by one. *)
Fixpoint join (cs : list (list ascii)) : list ascii :=
  match cs with
  | [] => []
  | c :: cs' =>
      match cs' with
      | [] => c
      | _ => c ++ filepath.Separator :: join cs'
      end
  end.

Fixpoint flat (cs : list (list ascii)) : list ascii :=
  match cs with
  | [] => []
  | c :: cs' => c ++ filepath.Separator :: flat cs'
  end.

(** What the default case of [Clean] does to the buffer for element [c]. *)
Definition push (rooted : bool) (out c : list ascii) : list ascii :=
  (if (rooted && negb (length out =? 1)%nat)
      || (negb rooted && negb (length out =? 0)%nat)
   then out ++ [filepath.Separator] else out) ++ c.

(** The two keys of an entry that lies [cs] below the scanned root, the
    root being the directory [/root]: relative to the root, as
    [filepath.Rel] gives it, and absolute. The root itself has the relative
    key [.]. *)
Definition relKey (cs : list (list ascii)) : string :=
  String.string_of_list_ascii
    match cs with
    | [] => ["."%char]
    | _ => join cs
    end.

Definition absKey0 (cs : list (list ascii)) : string :=
  String.string_of_list_ascii (filepath.Separator :: join cs).

Definition absKey (root cs : list (list ascii)) : string := absKey0 (root ++ cs).

Definition mu_s (path : string) : nat := mu (String.list_ascii_of_string path).

(** ** Vocabulary of the properties *)

(** The total recorded for a directory key, if there is a record. *)
Definition totalBytes (b : Bloat) (k : string) : option Z :=
  p ← DirMap b !! k; Bytes <$> heap b !! p.

(** The total as a number, zero for a key without a record. *)
Definition bytes_of (b : Bloat) (k : string) : Z := default 0%Z (totalBytes b k).

(** Every key of the map points to a record, and the record carries the
    key as its [Path]. *)
Definition Inv (b : Bloat) : Prop :=
  ∀ k p, DirMap b !! k = Some p →
    ∃ info, heap b !! p = Some info ∧ Path info = k.

(** The parent chain of a path: the parents computed one after the other,
    up to the first that equals the directory it was computed from. *)
Fixpoint parents (fuel : nat) (dir : string) : list string :=
  match fuel with
  | 0 => []
  | S fuel' =>
      let d := filepath.Dir dir in
      if decide (dir = d) then [] else d :: parents fuel' d
  end.

Definition ancestors (path : string) : list string :=
  parents (S (depth path)) path.

(** [k] is an ancestor directory of [path]: a value that iterating the
    parent function from [path] reaches, other than [path] itself. *)
Definition is_ancestor (k path : string) : Prop :=
  (∃ n, k = Nat.iter (S n) filepath.Dir path) ∧ k ≠ path.

(** The order that [sort.Slice] leaves between an element and the one
    before it. *)
Definition not_less {A} (less : A → A → bool) (y z : A) : Prop := less y z = false.

(** [Dirs] runs from the largest total to the smallest: at every adjacent
    pair of positions the first total is at least the second. *)
Definition descending (b : Bloat) : Prop :=
  ∀ i x y, Dirs b !! i = Some x → Dirs b !! S i = Some y →
    (Bytes (deref (heap b) y) ≤ Bytes (deref (heap b) x))%Z.

(** The directory key that the walk function computes for a visit:
    absolute in absolute mode, relative to the base directory otherwise. *)
Definition key (absmode : bool) (v : Visit) : resolved :=
  if absmode then v_Abs v else v_Rel v.

(** A visit that goes through: no error from the walk, and the key resolves. *)
Definition fine (absmode : bool) (v : Visit) : Prop :=
  v_err v = None ∧ ∃ fdir, key absmode v = Resolved fdir.

(** What a run of visits adds up to, all of them going through. *)
Definition tally (calls : list Visit) (b : Bloat) : Bloat :=
  fold_left (λ b v,
    match key (Abs b) v with
    | Resolved fdir => AddFile b fdir (Size (v_info v))
    | Failed _ => b
    end) calls b.

(** The visits whose size goes to directory [k], and the sum of their sizes. *)
Definition below (absmode : bool) (k : string) (v : Visit) : bool :=
  match key absmode v with
  | Resolved fdir => bool_decide (k ∈ ancestors fdir)
  | Failed _ => false
  end.

Definition sizes_below (absmode : bool) (k : string) (calls : list Visit) : Z :=
  foldr Z.add 0%Z (Size ∘ v_info <$> filter (λ v, below absmode k v = true) calls).

Definition is_progress (l : stdout_line) : Prop := ∃ path, l = Progress path.

(** The report of an accumulator: one line for each entry of [Dirs]. *)
Definition ranked (b : Bloat) : list stdout_line :=
  (λ info, Ranked (Bytes (deref (heap b) info)) (Path (deref (heap b) info)))
    <$> Dirs b.

(** The arguments make [main] scan: there is one, and the first does not
    ask for the help text. *)
Definition scans (args : list string) : Prop :=
  match args with
  | [] => False
  | helpp :: _ => ¬ (helpp = "--help" ∨ helpp = "-h" ∨ helpp = "/?")
  end.

(** The world when the first scan of [main] starts. *)
Definition start (args : list string) : World :=
  {| bloat := NewBloat (1 <? length args)%nat; stdout := []; stderr := [] |}.

(** A visit of an entry at or below the scanned root [/root]: the walk
    reports no error and the two keys are those of some [cs] below it. *)
Definition beneath (root : list (list ascii)) (v : Visit) : Prop :=
  v_err v = None
  ∧ ∃ cs, Forall name cs
      ∧ v_Rel v = Resolved (relKey cs) ∧ v_Abs v = Resolved (absKey root cs).

(** The relative and the absolute accumulator agree on the directories at
    or below the root. *)
Definition agree (root : list (list ascii)) (b_rel b_abs : Bloat) : Prop :=
  ∀ ds, Forall name ds →
    totalBytes b_rel (relKey ds) = totalBytes b_abs (absKey root ds).

(** Two accumulators that differ only in how the keys are written: a
    one-to-one renaming of the keys carries the records of the first onto
    those of the second, totals unchanged. *)
Definition same_up_to_keys (b1 b2 : Bloat) : Prop :=
  ∃ ρ : string → string,
    (∀ k1 k2, ρ k1 = ρ k2 → k1 = k2)
    ∧ (∀ k, totalBytes b2 (ρ k) = totalBytes b1 k)
    ∧ (∀ k', is_Some (totalBytes b2 k') → ∃ k, k' = ρ k).

(** The world in which one scan starts, in either mode. *)
Definition fresh (absmode : bool) : World :=
  {| bloat := NewBloat absmode; stdout := []; stderr := [] |}.

(** ** Vocabulary of the further properties *)

(** A path that starts with a separator (on Unix, [filepath.IsAbs]). *)
Definition starts_sep (path : list ascii) : bool :=
  match path with
  | [] => false
  | c :: _ => filepath.IsPathSeparator c
  end.

Definition rooted_path (path : string) : bool :=
  starts_sep (String.list_ascii_of_string path).

(** The directory at which the parent chain of a path ends. *)
Definition top_of (path : string) : string :=
  if rooted_path path then "/" else ".".


(** Every pointer of [Dirs] is the pointer of some key of the map. *)
Definition Dirs_live (b : Bloat) : Prop :=
  ∀ p, p ∈ Dirs b → ∃ k, DirMap b !! k = Some p.

(** An entry of a tree: the names that lead to it from the scanned root,
    and what the walk reports of it. *)
Record Item := mkItem { i_names : list (list ascii); i_info : FileInfo }.

(** The visit of an item in a walk of the root [/root] that goes through. *)
Definition visit_at (root : list (list ascii)) (it : Item) : Visit :=
  {| v_path := absKey root (i_names it);
     v_info := i_info it;
     v_err := None;
     v_Abs := Resolved (absKey root (i_names it));
     v_Rel := Resolved (relKey (i_names it)) |}.

(** [cs] lies strictly below [ds]. *)
Definition strictly_below (ds cs : list (list ascii)) : Prop :=
  ds ≠ cs ∧ ds `prefix_of` cs.

#[global] Instance strictly_below_dec ds cs : Decision (strictly_below ds cs) :=
  ltac:(unfold strictly_below; apply _).

Definition sum_sizes (items : list Item) : Z :=
  foldr Z.add 0%Z (Size ∘ i_info <$> items).

(** A line that [Scan] prints when the walk of one of the roots [args]
    returns an error. *)
Definition is_scan_error (args : list string) (l : stderr_line) : Prop :=
  ∃ basedir werr, basedir ∈ args ∧ l = ErrorScanning basedir werr.

(** The key of the directory [ds] below the root, in either mode. *)
Definition key_at (absmode : bool) (root ds : list (list ascii)) : string :=
  if absmode then absKey root ds else relKey ds.

(** ** Example trees *)

Definition dir_visit (path abs rel : string) (size : Z) : Visit :=
  {| v_path := path; v_info := {| Size := size; IsDir := true |};
     v_err := None; v_Abs := Resolved abs; v_Rel := Resolved rel |}.

Definition file_visit (path abs rel : string) (size : Z) : Visit :=
  {| v_path := path; v_info := {| Size := size; IsDir := false |};
     v_err := None; v_Abs := Resolved abs; v_Rel := Resolved rel |}.

(** The tree of the example scenario, root [/a] with [/a/b/file1] of 100
    bytes and [/a/c/file2] of 50 bytes, as a walk reports it: the three
    directories are visited too, each with the size of a directory
    (4096 bytes here). *)
Definition tree_a : list Visit :=
  [ dir_visit "/a" "/a" "." 4096;
    dir_visit "/a/b" "/a/b" "b" 4096;
    file_visit "/a/b/file1" "/a/b/file1" "b/file1" 100;
    dir_visit "/a/c" "/a/c" "c" 4096;
    file_visit "/a/c/file2" "/a/c/file2" "c/file2" 50 ].

Definition fs_a (basedir : string) : list Visit :=
  if decide (basedir = "/a") then tree_a else [].

(** A root [/r] with one file, then an entry whose path does not resolve,
    then one more file; and a root [/s] whose walk meets an entry that
    cannot be visited after its first file. *)
Definition tree_r : list Visit :=
  [ file_visit "/r/f" "/r/f" "f" 10;
    {| v_path := "/r/g"; v_info := {| Size := 20; IsDir := false |};
       v_err := None; v_Abs := Failed "getwd: no such file or directory";
       v_Rel := Failed "Rel: can't make /r/g relative to /r" |};
    file_visit "/r/h" "/r/h" "h" 30 ].

Definition tree_s : list Visit :=
  [ file_visit "/s/f" "/s/f" "f" 10;
    {| v_path := "/s/d"; v_info := {| Size := 0; IsDir := true |};
       v_err := Some "open /s/d: permission denied";
       v_Abs := Resolved "/s/d"; v_Rel := Resolved "d" |};
    file_visit "/s/h" "/s/h" "h" 30 ].

Definition fs_rs (basedir : string) : list Visit :=
  if decide (basedir = "/r") then tree_r
  else if decide (basedir = "/s") then tree_s
  else if decide (basedir = "/a") then tree_a
  else [].

(** The example tree as items below its root, and a file system that
    reports it in another order. *)
Definition items_a : list Item :=
  [ {| i_names := []; i_info := {| Size := 4096; IsDir := true |} |};
    {| i_names := [String.list_ascii_of_string "b"];
       i_info := {| Size := 4096; IsDir := true |} |};
    {| i_names := [String.list_ascii_of_string "b";
                   String.list_ascii_of_string "file1"];
       i_info := {| Size := 100; IsDir := false |} |};
    {| i_names := [String.list_ascii_of_string "c"];
       i_info := {| Size := 4096; IsDir := true |} |};
    {| i_names := [String.list_ascii_of_string "c";
                   String.list_ascii_of_string "file2"];
       i_info := {| Size := 50; IsDir := false |} |} ].

Definition fs_items (basedir : string) : list Visit :=
  if decide (basedir = "/a")
  then visit_at [String.list_ascii_of_string "a"] <$> items_a else [].

Definition fs_a_rev (basedir : string) : list Visit := rev (fs_a basedir).

(** A name of the example trees, from its text. *)
Definition nm (s : string) : list ascii := String.list_ascii_of_string s.

(** The worlds of the example runs. *)
Definition args_ex : list string := ["/a"; "/s"; "/a"].
Definition w1_ex : World := (scan_all fs_rs ["/a"] (start args_ex)).1.
Definition w2_ex : World := (Walk (take 1 tree_s) walkFn w1_ex).1.
Definition w3_ex : World :=
  {| bloat := bloat w2_ex; stdout := stdout w2_ex;
     stderr := stderr w2_ex
               ++ [ErrorScanning "/s" "open /s/d: permission denied"] |}.
Definition w4_ex : World := (scan_all fs_rs ["/a"] w3_ex).1.
Definition wr_ex : World := (Walk (take 1 tree_r) walkFn (start ["/r"])).1.

(** * Facts about [filepath] *)

(** The model on the examples of the Go documentation of [Dir] and on
    entries of the table that the library tests [Clean] with. *)
Example Dir_documented :
  filepath.Dir <$> [ "/foo/bar/baz.js"; "/foo/bar/baz"; "/foo/bar/baz/";
                     "/dirty//path///"; "dev.txt"; "../todo.txt"; "..";
                     "."; "/"; "" ]
  = [ "/foo/bar"; "/foo/bar"; "/foo/bar/baz"; "/dirty/path"; "."; "..";
      "."; "."; "/"; "." ].
Proof. reflexivity. Qed.

Example Clean_tested :
  filepath.Clean <$> [ "abc"; "abc/def"; "a/b/c"; "."; ".."; "../.."; "../../abc";
                       "/abc"; "/"; ""; "abc/"; "abc/def/"; "./"; "../"; "/abc/";
                       "abc//def//ghi"; "//abc"; "abc/./def"; "/./abc/def";
                       "abc/def/ghi/../jkl"; "abc/def/../ghi/../jkl";
                       "abc/def/.."; "abc/def/../.."; "/abc/def/../..";
                       "abc/def/../../.."; "/abc/def/../../..";
                       "abc/def/../../../ghi/jkl/../../../mno"; "/../abc";
                       "abc/./../def"; "abc//./../def"; "abc/../../././../def" ]
  = [ "abc"; "abc/def"; "a/b/c"; "."; ".."; "../.."; "../../abc";
      "/abc"; "/"; "."; "abc"; "abc/def"; "."; ".."; "/abc";
      "abc/def/ghi"; "/abc"; "abc/def"; "/abc/def";
      "abc/def/jkl"; "abc/jkl";
      "abc"; "."; "/";
      ".."; "/";
      "../../mno"; "/abc";
      "def"; "def"; "../../def" ].
Proof. reflexivity. Qed.

Section filepath_facts.
Import filepath.

Lemma IsPathSeparator_true c : IsPathSeparator c = true ↔ c = Separator.
Proof. unfold IsPathSeparator. rewrite Ascii.eqb_eq. split; congruence. Qed.

Lemma IsPathSeparator_false c : IsPathSeparator c = false ↔ c ≠ Separator.
Proof. rewrite <- IsPathSeparator_true. destruct (IsPathSeparator c); split; congruence. Qed.

Lemma slashes_cons c l :
  slashes (c :: l) = (if IsPathSeparator c then 1 else 0) + slashes l.
Proof.
  unfold slashes. simpl. destruct (ascii_dec c Separator) as [->|Hne].
  - reflexivity.
  - apply IsPathSeparator_false in Hne. now rewrite Hne.
Qed.

Lemma slashes_app l1 l2 : slashes (l1 ++ l2) = slashes l1 + slashes l2.
Proof. apply count_occ_app. Qed.

Lemma slashes_take n l : slashes (take n l) ≤ slashes l.
Proof.
  rewrite <- (take_drop n l) at 2. rewrite slashes_app. lia.
Qed.

Lemma ends_sep_cons pre c l : ends_sep pre (c :: l) = ends_sep (IsPathSeparator c) l.
Proof. reflexivity. Qed.

Lemma ends_sep_app pre l1 l2 : ends_sep pre (l1 ++ l2) = ends_sep (ends_sep pre l1) l2.
Proof. apply fold_left_app. Qed.

Lemma ends_sep_plain pre e : e ≠ [] → slashes e = 0 → ends_sep pre e = false.
Proof.
  revert pre. induction e as [|c e IH]; intros pre Hne Hs; [done|].
  rewrite slashes_cons in Hs. rewrite ends_sep_cons.
  destruct (IsPathSeparator c) eqn:Hc; [lia|].
  destruct e as [|c' e]; [done|]. apply IH; [done|lia].
Qed.

Lemma ends_sep_slashes l : ends_sep false l = true → 1 ≤ slashes l.
Proof.
  destruct (Nat.eq_dec (slashes l) 0) as [Hz|]; [|lia].
  destruct l as [|c l]; [done|]. intros H.
  rewrite ends_sep_plain in H; done.
Qed.

(** The copy loop splits the input at the next separator. *)
Lemma element_spec rest e r :
  element rest = (e, r) →
  rest = e ++ r ∧ slashes e = 0 ∧ end_or_sep r = true.
Proof.
  revert e r. induction rest as [|c rest IH]; intros e r H; simpl in H.
  - by inversion H.
  - destruct (IsPathSeparator c) eqn:Hc.
    + inversion H; subst. simpl. by rewrite Hc.
    + destruct (element rest) as [e' r'] eqn:He. inversion H; subst.
      destruct (IH _ _ eq_refl) as (-> & Hs & Hr).
      rewrite slashes_cons, Hc. done.
Qed.

Lemma element_progress c rest e r :
  IsPathSeparator c = false → element (c :: rest) = (e, r) →
  e ≠ [] ∧ length r ≤ length rest.
Proof.
  intros Hc H. simpl in H. rewrite Hc in H.
  destruct (element rest) as [e' r'] eqn:He. inversion H; subst.
  split; [done|]. apply element_spec in He as (-> & _ & _).
  rewrite length_app. lia.
Qed.

Lemma paid_weaken rooted out pre c c' :
  paid rooted out pre c → c ≤ c' → paid rooted out false c'.
Proof.
  intros [H|[H|H]] Hle; [by left|by right; left|right; right].
  destruct pre; lia.
Qed.

(** The accounting survives the loop: at the end every separator of the
    buffer is paid for by the separators of the whole input. *)
Lemma clean_loop_paid fuel : ∀ rooted rest out dotdot pre c,
  length rest ≤ fuel →
  pre = true ∨ end_or_sep rest = true ∨ out = [] →
  paid rooted out pre c →
  (rooted = true → 1 ≤ c) →
  paid rooted (clean_loop fuel rooted rest out dotdot)
       (ends_sep pre rest) (c + slashes rest).
Proof.
  induction fuel as [|fuel IH]; intros rooted rest out dotdot pre c Hlen Hb Hp Hr.
  { destruct rest; [|simpl in Hlen; lia]. simpl. by rewrite Nat.add_0_r. }
  destruct rest as [|ch rest1].
  { simpl. by rewrite Nat.add_0_r. }
  simpl in Hlen. cbn [clean_loop]. rewrite ends_sep_cons, slashes_cons.
  destruct (IsPathSeparator ch) eqn:Hch.
  { (* empty element *)
    replace (c + (1 + slashes rest1)) with (S c + slashes rest1) by lia.
    apply IH; [lia|by left| |lia].
    destruct Hp as [H|[H|H]]; [by left|by right; left|right; right].
    destruct pre; lia. }
  simpl (c + _).
  destruct (is_dot ch && end_or_sep rest1) eqn:Hdot.
  { (* . element *)
    apply andb_prop in Hdot as [_ Hend].
    apply IH; [lia|by right; left|by eapply paid_weaken|done]. }
  destruct (is_dot ch && is_dot (hd "000"%char rest1) && end_or_sep (tl rest1)) eqn:Hdd.
  { (* .. element *)
    apply andb_prop in Hdd as [Hdd Hend]. apply andb_prop in Hdd as [_ Hd1].
    destruct rest1 as [|c1 rest2]; [done|]. simpl in Hd1, Hend, Hlen. simpl tl.
    assert (IsPathSeparator c1 = false) as Hc1.
    { unfold is_dot in Hd1. apply Ascii.eqb_eq in Hd1. by subst. }
    rewrite ends_sep_cons, slashes_cons, Hc1. simpl (c + _).
    destruct (dotdot <? length out)%nat eqn:Hw.
    - apply IH; [lia|by right; left| |done].
      destruct Hp as [->|[[-> ->]|H]].
      + left. by rewrite take_nil.
      + destruct (backtrack [Separator] dotdot (length [Separator] - 1)); [by left|].
        right; left. split; [done|]. simpl. by rewrite take_nil.
      + right; right. pose proof (slashes_take (backtrack out dotdot (length out - 1)) out).
        destruct pre; lia.
    - destruct rooted; simpl negb; cbv iota.
      + apply IH; [lia|by right; left|by eapply paid_weaken|done].
      + apply IH; [lia|by right; left| |done].
        right; right. destruct out as [|o out'].
        * simpl. unfold slashes. simpl. lia.
        * cbn [length Nat.ltb Nat.leb]. rewrite !slashes_app.
          change (slashes [Separator]) with 1.
          change (slashes ["."%char; "."%char]) with 0.
          destruct Hb as [->|[Hb|Hb]]; [|simpl in Hb; congruence|done].
          destruct Hp as [H|[[H _]|H]]; [done|done|lia]. }
  (* real path element *)
  destruct (element (ch :: rest1)) as [e rest'] eqn:He.
  destruct (element_progress _ _ _ _ Hch He) as [Hne Hlen'].
  destruct (element_spec _ _ _ He) as (Heq & Hse & Hend).
  assert (slashes rest1 = slashes rest') as ->.
  { pose proof (f_equal slashes Heq) as Hs.
    rewrite slashes_cons, Hch, slashes_app, Hse in Hs. done. }
  assert (ends_sep false rest1 = ends_sep false rest') as ->.
  { transitivity (ends_sep false (ch :: rest1)).
    { by rewrite ends_sep_cons, Hch. }
    rewrite Heq, ends_sep_app. by rewrite (ends_sep_plain _ e). }
  apply IH; [lia|by right; left| |done].
  right; right. rewrite slashes_app, Hse, Nat.add_0_r, Nat.add_0_r.
  destruct ((rooted && negb (length out =? 1)%nat)
            || (negb rooted && negb (length out =? 0)%nat)) eqn:Hsep.
  - rewrite slashes_app. change (slashes [Separator]) with 1.
    destruct Hb as [-> | [Hb | ->]]; [|simpl in Hb; congruence|].
    + destruct Hp as [->|[[-> ->]|H]]; [|done|lia].
      destruct rooted; [|done]. specialize (Hr eq_refl). unfold slashes; simpl; lia.
    + destruct rooted; [|done]. specialize (Hr eq_refl). unfold slashes; simpl; lia.
  - destruct Hp as [->|[[-> ->]|H]].
    + unfold slashes; simpl; lia.
    + specialize (Hr eq_refl). unfold slashes; simpl; lia.
    + destruct pre; lia.
Qed.

(** Cleaning a path that ends in a separator loses a separator, unless
    the result is the root. *)
Lemma clean_slashes x :
  ends_sep false x = true →
  clean x = [Separator] ∨ slashes (clean x) < slashes x.
Proof.
  intros Hx. pose proof (ends_sep_slashes _ Hx) as Hpos.
  destruct x as [|ch rest]; [done|]. unfold clean.
  destruct (IsPathSeparator ch) eqn:Hch.
  - pose proof (clean_loop_paid (length (ch :: rest)) true rest [Separator] 1 true 1) as H.
    rewrite ends_sep_cons, Hch in Hx. rewrite Hx in H.
    rewrite slashes_cons, Hch.
    destruct H as [H|[[_ H]|H]];
      [simpl; lia|by left|by right; left|done|rewrite H; simpl ..|].
    + right. unfold slashes at 1. simpl. lia.
    + by left.
    + right. destruct (length _ =? 0)%nat; [unfold slashes at 1; simpl|]; lia.
  - pose proof (clean_loop_paid (length (ch :: rest)) false (ch :: rest) [] 0 false 0) as H.
    rewrite Hx in H. right.
    destruct H as [H|[[H _]|H]];
      [simpl; lia|by right; right|by left|done|rewrite H; simpl| |].
    + unfold slashes at 1. simpl. lia.
    + done.
    + destruct (length _ =? 0)%nat; [unfold slashes at 1; simpl|]; lia.
Qed.

(** [Dir] cuts the path after its last separator. *)
Lemma last_sep_spec path n :
  n ≤ length path →
  slashes (take (last_sep path n) path) = slashes (take n path)
  ∧ (last_sep path n = 0 ∨ ends_sep false (take (last_sep path n) path) = true).
Proof.
  induction n as [|i IH]; intros Hn; [split; [done|by left]|].
  assert (is_Some (path !! i)) as [ch Hi] by (apply lookup_lt_is_Some; lia).
  assert (index path i = ch) as Hidx.
  { unfold index. apply nth_lookup_Some with (d := "000"%char) in Hi. done. }
  rewrite (take_S_r _ _ _ Hi). cbn [last_sep]. rewrite Hidx.
  destruct (IsPathSeparator ch) eqn:Hch.
  - rewrite (take_S_r _ _ _ Hi). split; [done|right].
    by rewrite ends_sep_app; simpl; rewrite Hch.
  - destruct IH as [IH1 IH2]; [lia|]. split; [|done].
    rewrite slashes_app, slashes_cons, Hch, IH1. change (slashes []) with 0. lia.
Qed.

Lemma dir_root : dir [Separator] = [Separator].
Proof. reflexivity. Qed.

Lemma dir_dot : dir ["."%char] = ["."%char].
Proof. reflexivity. Qed.

Lemma mu_le path : mu path ≤ S (slashes path).
Proof. unfold mu. case_bool_decide; lia. Qed.

(** [Dir] moves towards its fixed points. *)
Lemma dir_mu path : dir path ≠ path → mu (dir path) < mu path.
Proof.
  intros Hne. unfold dir in *.
  destruct (last_sep_spec path (length path)) as [Hs Hl]; [done|].
  rewrite firstn_all in Hs.
  set (x := take (last_sep path (length path)) path) in *.
  assert (mu path = S (slashes path)) as Hmu.
  { unfold mu. case_bool_decide as Hp; [|done].
    exfalso. apply Hne. by destruct Hp as [->| ->]. }
  destruct Hl as [Hl|Hl].
  - subst x. rewrite Hl, take_0 in *. simpl. rewrite Hmu. unfold mu. simpl. lia.
  - destruct (clean_slashes x Hl) as [H|H].
    + rewrite H, Hmu. unfold mu. simpl. lia.
    + pose proof (mu_le (clean x)). lia.
Qed.

(** ** [Clean] and [Dir] on paths made of plain names *)

Lemma clean_loop_fuel f1 : ∀ f2 rooted rest out dotdot,
  length rest ≤ f1 → length rest ≤ f2 →
  clean_loop f1 rooted rest out dotdot = clean_loop f2 rooted rest out dotdot.
Proof.
  induction f1 as [|f1 IH]; intros f2 rooted rest out dotdot H1 H2.
  { destruct rest; [|simpl in H1; lia]. by destruct f2. }
  destruct rest as [|ch rest1]; [by destruct f2|].
  destruct f2 as [|f2]; [simpl in H2; lia|]. simpl in H1, H2.
  cbn [clean_loop].
  destruct (IsPathSeparator ch) eqn:Hch; [apply IH; lia|].
  destruct (is_dot ch && end_or_sep rest1); [apply IH; lia|].
  destruct (is_dot ch && is_dot (hd "000"%char rest1) && end_or_sep (tl rest1)).
  { assert (length (tl rest1) ≤ length rest1) by (destruct rest1; simpl; lia).
    destruct (dotdot <? length out)%nat; [apply IH; lia|].
    destruct (negb rooted); apply IH; lia. }
  destruct (element (ch :: rest1)) as [e rest'] eqn:He.
  destruct (element_progress _ _ _ _ Hch He) as [_ Hlen].
  apply IH; lia.
Qed.

Lemma element_plain c rest :
  slashes c = 0 → end_or_sep rest = true → element (c ++ rest) = (c, rest).
Proof.
  intros Hc Hr. induction c as [|ch c IH]; cbn [app element].
  - destruct rest as [|r rest]; [done|]. cbn [end_or_sep element] in *.
    by rewrite Hr.
  - rewrite slashes_cons in Hc.
    destruct (IsPathSeparator ch); [lia|]. by rewrite IH.
Qed.

(** A plain name followed by a separator goes to the buffer as it is. *)
Lemma clean_loop_name fuel rooted c more out dotdot :
  name c → length (c ++ Separator :: more) ≤ fuel →
  clean_loop fuel rooted (c ++ Separator :: more) out dotdot
  = clean_loop (length more) rooted more (push rooted out c) dotdot.
Proof.
  intros (Hne & Hs & Hdot & Hdd) Hlen.
  destruct c as [|ch c]; [done|]. rewrite length_app in Hlen. simpl in Hlen.
  destruct fuel as [|fuel]; [lia|].
  rewrite slashes_cons in Hs.
  destruct (IsPathSeparator ch) eqn:Hch; [lia|]. simpl in Hs.
  cbn [clean_loop app]. rewrite Hch.
  assert (is_dot ch && end_or_sep (c ++ Separator :: more) = false) as ->.
  { apply andb_false_iff. destruct c as [|c1 c]; [left|right].
    - unfold is_dot. apply Ascii.eqb_neq. by intros ->.
    - simpl. rewrite slashes_cons in Hs. by destruct (IsPathSeparator c1). }
  assert (is_dot ch && is_dot (hd "000"%char (c ++ Separator :: more))
          && end_or_sep (tl (c ++ Separator :: more)) = false) as ->.
  { destruct c as [|c1 [|c2 c]]; simpl.
    - apply andb_false_iff. left. apply andb_false_iff. by right.
    - change (IsPathSeparator Separator) with true.
      rewrite andb_true_r. apply andb_false_iff.
      destruct (is_dot ch) eqn:H1; [right|by left].
      destruct (is_dot c1) eqn:H2; [|done].
      unfold is_dot in *. apply Ascii.eqb_eq in H1, H2. by subst.
    - rewrite !slashes_cons in Hs.
      destruct (IsPathSeparator c1), (IsPathSeparator c2); try lia.
      all: by rewrite andb_false_r. }
  change (ch :: c ++ Separator :: more) with ((ch :: c) ++ Separator :: more).
  rewrite element_plain; [|by rewrite slashes_cons, Hch|done].
  fold (push rooted out (ch :: c)).
  destruct fuel as [|fuel]; [lia|]. cbn [clean_loop].
  change (IsPathSeparator Separator) with true. cbv iota.
  apply clean_loop_fuel; lia.
Qed.

Lemma length_flat_cons c cs :
  length (flat (c :: cs)) = length c + S (length (flat cs)).
Proof. simpl. by rewrite length_app. Qed.

Lemma clean_loop_flat rooted dotdot cs : ∀ fuel out,
  Forall name cs → length (flat cs) ≤ fuel →
  clean_loop fuel rooted (flat cs) out dotdot = fold_left (push rooted) cs out.
Proof.
  induction cs as [|c cs IH]; intros fuel out Hn Hlen.
  { by destruct fuel. }
  apply Forall_cons in Hn as [Hc Hn]. cbn [flat fold_left].
  rewrite clean_loop_name by done. by apply IH.
Qed.

Lemma join_cons c cs : cs ≠ [] → join (c :: cs) = c ++ Separator :: join cs.
Proof. by destruct cs. Qed.

Lemma join_flat cs c : join (cs ++ [c]) = flat cs ++ c.
Proof.
  induction cs as [|c0 cs IH]; [done|].
  rewrite <- app_comm_cons, join_cons by (by destruct cs).
  cbn [flat]. by rewrite IH, <- app_assoc.
Qed.

Lemma flat_snoc cs c : flat (cs ++ [c]) = flat cs ++ c ++ [Separator].
Proof.
  induction cs as [|c0 cs IH]; [done|].
  rewrite <- app_comm_cons. cbn [flat]. by rewrite IH, <- app_assoc.
Qed.

Lemma join_snoc cs c : cs ≠ [] → join (cs ++ [c]) = join cs ++ Separator :: c.
Proof.
  intros Hne. rewrite join_flat.
  destruct (exists_last Hne) as (cs' & c' & ->).
  by rewrite flat_snoc, join_flat, <- !app_assoc.
Qed.

Lemma flat_join cs : cs ≠ [] → flat cs = join cs ++ [Separator].
Proof.
  intros Hne. destruct (exists_last Hne) as (cs' & c' & ->).
  by rewrite flat_snoc, join_flat, <- app_assoc.
Qed.

Lemma name_length c : name c → 1 ≤ length c.
Proof. intros (Hne & _). destruct c; [done|simpl; lia]. Qed.

Lemma join_length cs : Forall name cs → cs ≠ [] → 1 ≤ length (join cs).
Proof.
  intros Hn Hne. destruct cs as [|c cs]; [done|].
  apply Forall_cons in Hn as [Hc _]. apply name_length in Hc.
  destruct cs; cbn [join]; rewrite ?length_app; lia.
Qed.

Lemma push_relative ps cs :
  Forall name ps → Forall name cs →
  fold_left (push false) cs (join ps) = join (ps ++ cs).
Proof.
  revert ps. induction cs as [|c cs IH]; intros ps Hps Hcs.
  { by rewrite app_nil_r. }
  apply Forall_cons in Hcs as [Hc Hcs]. cbn [fold_left].
  replace (push false (join ps) c) with (join (ps ++ [c])).
  { rewrite IH; [by rewrite <- app_assoc| |done].
    apply Forall_app. split; [done|by constructor]. }
  unfold push. destruct ps as [|p ps]; [done|].
  pose proof (join_length (p :: ps) Hps ltac:(done)) as Hl.
  destruct (length (join (p :: ps))) eqn:Hlen; [lia|]. cbn [negb andb orb Nat.eqb].
  rewrite join_snoc by done. by rewrite <- app_assoc.
Qed.

Lemma push_rooted ps cs :
  Forall name ps → Forall name cs →
  fold_left (push true) cs (Separator :: join ps) = Separator :: join (ps ++ cs).
Proof.
  revert ps. induction cs as [|c cs IH]; intros ps Hps Hcs.
  { by rewrite app_nil_r. }
  apply Forall_cons in Hcs as [Hc Hcs]. cbn [fold_left].
  replace (push true (Separator :: join ps) c) with (Separator :: join (ps ++ [c])).
  { rewrite IH; [by rewrite <- app_assoc| |done].
    apply Forall_app. split; [done|by constructor]. }
  unfold push. destruct ps as [|p ps]; [done|].
  pose proof (join_length (p :: ps) Hps ltac:(done)) as Hl.
  cbn [length]. destruct (length (join (p :: ps))) eqn:Hlen; [lia|].
  cbn [negb andb orb Nat.eqb].
  rewrite join_snoc by done. by rewrite <- app_assoc.
Qed.

Lemma clean_flat cs : Forall name cs → cs ≠ [] → clean (flat cs) = join cs.
Proof.
  intros Hn Hne. pose proof (join_length cs Hn Hne) as Hl.
  destruct cs as [|c cs]; [done|].
  pose proof (Forall_inv Hn) as (Hc & Hs & _).
  destruct c as [|ch c]; [done|].
  rewrite slashes_cons in Hs. destruct (IsPathSeparator ch) eqn:Hch; [lia|].
  unfold clean. cbn [flat app]. rewrite Hch.
  change (ch :: c ++ Separator :: flat cs) with (flat ((ch :: c) :: cs)).
  rewrite clean_loop_flat by done.
  pose proof (push_relative [] _ (Forall_nil_2 _) Hn) as Hp.
  cbn [app] in Hp. change (join []) with (@nil ascii) in Hp. rewrite Hp.
  destruct (length (join ((ch :: c) :: cs))); [lia|done].
Qed.

Lemma clean_rooted_flat cs :
  Forall name cs → clean (Separator :: flat cs) = Separator :: join cs.
Proof.
  intros Hn. unfold clean. change (IsPathSeparator Separator) with true. cbv iota.
  rewrite clean_loop_flat by (simpl; done || lia).
  pose proof (push_rooted [] _ (Forall_nil_2 _) Hn) as Hp.
  cbn [app] in Hp. change (join []) with (@nil ascii) in Hp. by rewrite Hp.
Qed.

(** The scan of [Dir] runs back over a last element without separator. *)
Lemma last_sep_plain x c : ∀ tail,
  slashes c = 0 →
  last_sep (x ++ c ++ tail) (length x + length c)
  = last_sep (x ++ c ++ tail) (length x).
Proof.
  induction c as [|a c IH] using rev_ind; intros tail Hs.
  { by rewrite Nat.add_0_r. }
  rewrite slashes_app, slashes_cons in Hs.
  destruct (IsPathSeparator a) eqn:Ha; [lia|].
  rewrite length_app, <- app_assoc. cbn [length app].
  replace (length x + (length c + 1)) with (S (length x + length c)) by lia.
  cbn [last_sep].
  assert (index (x ++ c ++ a :: tail) (length x + length c) = a) as ->.
  { unfold index. rewrite app_assoc, <- length_app. apply nth_middle. }
  rewrite Ha. apply IH. lia.
Qed.

Lemma last_sep_here y tail :
  last_sep (y ++ Separator :: tail) (S (length y)) = S (length y).
Proof.
  cbn [last_sep]. unfold index. by rewrite nth_middle.
Qed.

(** [Dir] of a path whose last element is plain: the path before it. *)
Lemma dir_plain_end x c :
  slashes c = 0 → x = [] ∨ (∃ y, x = y ++ [Separator]) →
  dir (x ++ c) = clean x.
Proof.
  intros Hc Hx. unfold dir. f_equal. rewrite length_app.
  rewrite <- (app_nil_r c) at 1 3. rewrite last_sep_plain by done.
  destruct Hx as [->|[y ->]]; [done|].
  rewrite <- !app_assoc. cbn [app]. rewrite length_app. cbn [length].
  rewrite Nat.add_1_r, last_sep_here.
  replace (y ++ Separator :: c ++ []) with ((y ++ [Separator]) ++ c ++ [])
    by (by rewrite <- app_assoc).
  replace (S (length y)) with (length (y ++ [Separator]))
    by (rewrite length_app; simpl; lia).
  by rewrite take_app_length.
Qed.

Lemma dir_flat cs c :
  Forall name cs → name c →
  dir (flat cs ++ c) = match cs with [] => ["."%char] | _ => join cs end.
Proof.
  intros Hn (_ & Hc & _). rewrite dir_plain_end; [|done|].
  - destruct cs as [|c0 cs]; [done|]. by apply clean_flat.
  - destruct cs as [|c0 cs]; [by left|right].
    exists (join (c0 :: cs)). by apply flat_join.
Qed.

Lemma dir_rooted_flat cs c :
  Forall name cs → name c →
  dir (Separator :: flat cs ++ c) = Separator :: join cs.
Proof.
  intros Hn (_ & Hc & _).
  change (Separator :: flat cs ++ c) with ((Separator :: flat cs) ++ c).
  rewrite dir_plain_end; [by apply clean_rooted_flat|done|right].
  destruct cs as [|c0 cs]; [by exists []|].
  exists (Separator :: join (c0 :: cs)). cbn [app]. f_equal. by apply flat_join.
Qed.

Lemma split_at_sep c1 : ∀ c2 r1 r2,
  slashes c1 = 0 → slashes c2 = 0 →
  c1 ++ Separator :: r1 = c2 ++ Separator :: r2 → c1 = c2 ∧ r1 = r2.
Proof.
  induction c1 as [|a c1 IH]; intros [|a' c2] r1 r2 H1 H2 Heq;
    cbn [app] in Heq.
  - by injection Heq as ->.
  - injection Heq as <- _. rewrite slashes_cons in H2.
    change (IsPathSeparator Separator) with true in H2. cbv iota in H2. lia.
  - injection Heq as -> _. rewrite slashes_cons in H1.
    change (IsPathSeparator Separator) with true in H1. cbv iota in H1. lia.
  - injection Heq as -> Heq. rewrite slashes_cons in H1, H2.
    destruct (IH c2 r1 r2) as [-> ->]; [lia..|done|done].
Qed.

Lemma flat_inj cs1 : ∀ cs2,
  Forall name cs1 → Forall name cs2 → flat cs1 = flat cs2 → cs1 = cs2.
Proof.
  induction cs1 as [|c1 cs1 IH]; intros [|c2 cs2] H1 H2 Heq; cbn [flat] in Heq.
  - done.
  - by destruct c2.
  - by destruct c1.
  - apply Forall_cons in H1 as [(_ & Hs1 & _) H1].
    apply Forall_cons in H2 as [(_ & Hs2 & _) H2].
    apply split_at_sep in Heq as [-> Heq]; [|done..].
    f_equal. by apply IH.
Qed.

Lemma join_inj cs1 cs2 :
  Forall name cs1 → Forall name cs2 → join cs1 = join cs2 → cs1 = cs2.
Proof.
  intros H1 H2 Heq.
  destruct (decide (cs1 = [])) as [->|Hne1].
  { destruct (decide (cs2 = [])) as [->|Hne2]; [done|].
    pose proof (join_length _ H2 Hne2) as Hl. rewrite <- Heq in Hl. simpl in Hl. lia. }
  destruct (decide (cs2 = [])) as [->|Hne2].
  { pose proof (join_length _ H1 Hne1) as Hl. rewrite Heq in Hl. simpl in Hl. lia. }
  apply flat_inj; [done..|]. by rewrite !flat_join, Heq.
Qed.

Lemma join_not_dot cs : Forall name cs → cs ≠ [] → join cs ≠ ["."%char].
Proof.
  intros Hn Hne Heq. destruct cs as [|c cs]; [done|].
  pose proof (Forall_inv Hn) as (_ & Hs & Hdot & _).
  pose proof (flat_join (c :: cs) Hne) as Hf. rewrite Heq in Hf.
  cbn [flat] in Hf.
  change (["."%char] ++ [Separator]) with (["."%char] ++ Separator :: []) in Hf.
  by apply split_at_sep in Hf as [-> _].
Qed.

End filepath_facts.

(** * Facts about the parent chain *)

Lemma Dir_mu path : filepath.Dir path ≠ path → mu_s (filepath.Dir path) < mu_s path.
Proof.
  unfold filepath.Dir, mu_s. intros Hne.
  rewrite String.list_ascii_of_string_of_list_ascii. apply dir_mu.
  intros Heq. apply Hne. rewrite Heq.
  apply String.string_of_list_ascii_of_string.
Qed.

Lemma Dir_mu_le path : mu_s (filepath.Dir path) ≤ mu_s path.
Proof.
  destruct (decide (filepath.Dir path = path)) as [->|Hne]; [done|].
  apply Dir_mu in Hne. lia.
Qed.

Lemma mu_s_depth path : mu_s path ≤ depth path.
Proof. apply mu_le. Qed.

Lemma iter_Dir_mu n path : mu_s (Nat.iter n filepath.Dir path) ≤ mu_s path.
Proof.
  induction n as [|n IH]; [done|]. simpl.
  etrans; [apply Dir_mu_le|done].
Qed.

Lemma iter_Dir_fixed n path :
  filepath.Dir path = path → Nat.iter n filepath.Dir path = path.
Proof. intros H. induction n as [|n IH]; [done|]. simpl. by rewrite IH. Qed.

(** Past a step that moved, no parent is the starting path again. *)
Lemma iter_Dir_ne n path :
  filepath.Dir path ≠ path → Nat.iter (S n) filepath.Dir path ≠ path.
Proof.
  intros Hne Heq. apply Dir_mu in Hne.
  pose proof (iter_Dir_mu n (filepath.Dir path)) as H.
  rewrite <- Nat.iter_succ_r, Heq in H. lia.
Qed.

Lemma parents_mu fuel : ∀ path k, k ∈ parents fuel path → mu_s k < mu_s path.
Proof.
  induction fuel as [|fuel IH]; intros path k; simpl; [by intros ?%elem_of_nil|].
  case_decide as Hd; [by intros ?%elem_of_nil|].
  assert (mu_s (filepath.Dir path) < mu_s path) by (apply Dir_mu; congruence).
  intros [->|Hk]%elem_of_cons; [done|]. apply IH in Hk. lia.
Qed.

Lemma parents_NoDup fuel path : NoDup (parents fuel path).
Proof.
  revert path. induction fuel as [|fuel IH]; intros path; simpl; [constructor|].
  case_decide; constructor; [|done].
  intros Hin%parents_mu. lia.
Qed.

(** More fuel than the measure does not change the chain. *)
Lemma parents_fuel f1 : ∀ f2 path,
  mu_s path < f1 → mu_s path < f2 → parents f1 path = parents f2 path.
Proof.
  induction f1 as [|f1 IH]; intros f2 path H1 H2; [lia|].
  destruct f2 as [|f2]; [lia|]. simpl.
  case_decide as Hd; [done|]. f_equal.
  assert (mu_s (filepath.Dir path) < mu_s path) by (apply Dir_mu; congruence).
  apply IH; lia.
Qed.

Lemma ancestors_fuel fuel path :
  mu_s path < fuel → parents fuel path = ancestors path.
Proof.
  intros H. apply parents_fuel; [done|]. pose proof (mu_s_depth path). lia.
Qed.

Lemma parents_length fuel : ∀ path, length (parents fuel path) ≤ mu_s path.
Proof.
  induction fuel as [|fuel IH]; intros path; simpl; [lia|].
  case_decide as Hd; simpl; [lia|].
  assert (mu_s (filepath.Dir path) < mu_s path) by (apply Dir_mu; congruence).
  specialize (IH (filepath.Dir path)). lia.
Qed.

(** The chain holds exactly the ancestors. *)
Lemma parents_is_ancestor fuel : ∀ path k,
  mu_s path < fuel → k ∈ parents fuel path ↔ is_ancestor k path.
Proof.
  unfold is_ancestor.
  induction fuel as [|fuel IH]; intros path k Hf; [lia|]. cbn [parents].
  case_decide as Hd.
  - split; [by intros ?%elem_of_nil|]. intros [[n ->] Hne].
    by rewrite iter_Dir_fixed in Hne.
  - assert (filepath.Dir path ≠ path) as Hne by congruence.
    pose proof (Dir_mu _ Hne) as Hlt.
    rewrite elem_of_cons, IH by lia. split.
    + intros [->|[[n ->] Hk]].
      * split; [by exists 0|done].
      * rewrite <- Nat.iter_succ_r. split; [by exists (S n)|].
        by apply iter_Dir_ne.
    + intros [[n ->] Hk]. destruct n as [|n]; [by left|].
      destruct (decide (Nat.iter (S (S n)) filepath.Dir path = filepath.Dir path))
        as [Heq|Hneq]; [by left|right].
      rewrite Nat.iter_succ_r in Hneq |- *. split; [by exists n|done].
Qed.

Lemma ancestors_is_ancestor path k : k ∈ ancestors path ↔ is_ancestor k path.
Proof.
  apply parents_is_ancestor. pose proof (mu_s_depth path). lia.
Qed.

Lemma ancestors_fixed path : filepath.Dir path = path → ancestors path = [].
Proof. intros H. unfold ancestors. simpl. by rewrite decide_True. Qed.

Lemma ancestors_step path :
  filepath.Dir path ≠ path →
  ancestors path = filepath.Dir path :: ancestors (filepath.Dir path).
Proof.
  intros Hne. unfold ancestors at 1. cbn [parents].
  rewrite decide_False by congruence. f_equal.
  apply ancestors_fuel. pose proof (Dir_mu _ Hne). pose proof (mu_s_depth path). lia.
Qed.

Lemma ancestors_length path : length (ancestors path) ≤ depth path.
Proof.
  etrans; [apply parents_length|apply mu_s_depth].
Qed.

(** ** The parent chain of the keys of a tree *)

Lemma Dir_relKey cs c :
  Forall name cs → name c → filepath.Dir (relKey (cs ++ [c])) = relKey cs.
Proof.
  intros Hn Hc. unfold filepath.Dir, relKey.
  rewrite String.list_ascii_of_string_of_list_ascii.
  replace (match cs ++ [c] with [] => ["."%char] | _ => join (cs ++ [c]) end)
    with (flat cs ++ c) by (rewrite <- join_flat; by destruct cs).
  by rewrite dir_flat.
Qed.

Lemma Dir_absKey0 cs c :
  Forall name cs → name c → filepath.Dir (absKey0 (cs ++ [c])) = absKey0 cs.
Proof.
  intros Hn Hc. unfold filepath.Dir, absKey0.
  rewrite String.list_ascii_of_string_of_list_ascii, join_flat.
  by rewrite dir_rooted_flat.
Qed.

Lemma Dir_relKey_nil : filepath.Dir (relKey []) = relKey [].
Proof. reflexivity. Qed.

Lemma Dir_absKey0_nil : filepath.Dir (absKey0 []) = absKey0 [].
Proof. reflexivity. Qed.

Lemma string_of_list_ascii_inj l1 l2 :
  String.string_of_list_ascii l1 = String.string_of_list_ascii l2 → l1 = l2.
Proof.
  intros H. apply (f_equal String.list_ascii_of_string) in H.
  by rewrite !String.list_ascii_of_string_of_list_ascii in H.
Qed.

Lemma relKey_inj cs1 cs2 :
  Forall name cs1 → Forall name cs2 → relKey cs1 = relKey cs2 → cs1 = cs2.
Proof.
  intros H1 H2 Heq%string_of_list_ascii_inj.
  destruct cs1 as [|c1 cs1], cs2 as [|c2 cs2]; [done| | |by apply join_inj].
  - symmetry in Heq. by apply join_not_dot in Heq.
  - by apply join_not_dot in Heq.
Qed.

Lemma absKey0_inj cs1 cs2 :
  Forall name cs1 → Forall name cs2 → absKey0 cs1 = absKey0 cs2 → cs1 = cs2.
Proof.
  intros H1 H2 Heq%string_of_list_ascii_inj. injection Heq as Heq.
  by apply join_inj.
Qed.

(** A family of keys, one for each list of names, on which [Dir] drops the
    last name: its ancestors are the keys of the proper prefixes. *)
Section key_family.
Variable K : list (list ascii) → string.
Hypothesis K_nil : filepath.Dir (K []) = K [].
Hypothesis K_snoc : ∀ cs c,
  Forall name cs → name c → filepath.Dir (K (cs ++ [c])) = K cs.
Hypothesis K_inj : ∀ cs1 cs2,
  Forall name cs1 → Forall name cs2 → K cs1 = K cs2 → cs1 = cs2.

Lemma iter_Dir_K m cs :
  Forall name cs → Nat.iter m filepath.Dir (K cs) = K (take (length cs - m) cs).
Proof.
  intros Hn. induction m as [|m IH].
  { by rewrite Nat.sub_0_r, firstn_all. }
  rewrite Nat.iter_succ, IH.
  destruct (decide (length cs ≤ m)) as [Hle|Hgt].
  { replace (length cs - m) with 0 by lia. replace (length cs - S m) with 0 by lia.
    by rewrite !take_0. }
  replace (length cs - m) with (S (length cs - S m)) by lia.
  assert (is_Some (cs !! (length cs - S m))) as [c Hc]
    by (apply lookup_lt_is_Some; lia).
  rewrite (take_S_r _ _ _ Hc). apply K_snoc.
  - by apply Forall_take.
  - by eapply Forall_lookup_1.
Qed.

Lemma K_ancestor ds cs :
  Forall name ds → Forall name cs →
  K ds ∈ ancestors (K cs) ↔ ds ≠ cs ∧ ds `prefix_of` cs.
Proof.
  intros Hds Hcs. rewrite ancestors_is_ancestor. unfold is_ancestor. split.
  - intros [[n Hn] Hne]. rewrite iter_Dir_K in Hn by done.
    apply K_inj in Hn; [|done|by apply Forall_take].
    split; [by intros ->|]. rewrite Hn.
    exists (drop (length cs - S n) cs). by rewrite take_drop.
  - intros [Hne [k ->]]. split.
    + exists (length k - 1). rewrite iter_Dir_K by done.
      destruct k as [|x k]; [by rewrite app_nil_r in Hne|].
      rewrite length_app. cbn [length].
      replace (length ds + S (length k) - S (S (length k) - 1)) with (length ds) by lia.
      by rewrite take_app_length.
    + intros Heq. by apply K_inj in Heq.
Qed.

Lemma ancestors_K cs c :
  Forall name cs → name c → ancestors (K (cs ++ [c])) = K cs :: ancestors (K cs).
Proof.
  intros Hcs Hc. rewrite ancestors_step; rewrite K_snoc by done; [done|].
  intros Heq. apply K_inj in Heq; [|done|].
  - apply (f_equal length) in Heq. rewrite length_app in Heq. simpl in Heq. lia.
  - apply Forall_app. split; [done|by constructor].
Qed.

(** A key has as many ancestors as it has names. *)
Lemma ancestors_K_length cs : Forall name cs → length (ancestors (K cs)) = length cs.
Proof.
  induction cs as [|c cs IH] using rev_ind; intros Hn.
  { by rewrite ancestors_fixed. }
  apply Forall_app in Hn as [Hcs Hc]. apply Forall_inv in Hc.
  rewrite ancestors_K, length_app by done. cbn [length]. rewrite IH by done. lia.
Qed.

End key_family.

Lemma relKey_ancestor ds cs :
  Forall name ds → Forall name cs →
  relKey ds ∈ ancestors (relKey cs) ↔ ds ≠ cs ∧ ds `prefix_of` cs.
Proof. apply K_ancestor; [apply Dir_relKey_nil|apply Dir_relKey|apply relKey_inj]. Qed.

Lemma ancestors_relKey_length cs :
  Forall name cs → length (ancestors (relKey cs)) = length cs.
Proof.
  apply ancestors_K_length; [apply Dir_relKey_nil|apply Dir_relKey|apply relKey_inj].
Qed.

Lemma ancestors_absKey0_length cs :
  Forall name cs → length (ancestors (absKey0 cs)) = length cs.
Proof.
  apply ancestors_K_length;
    [apply Dir_absKey0_nil|apply Dir_absKey0|apply absKey0_inj].
Qed.

Lemma absKey_ancestor root ds cs :
  Forall name root → Forall name ds → Forall name cs →
  absKey root ds ∈ ancestors (absKey root cs) ↔ ds ≠ cs ∧ ds `prefix_of` cs.
Proof.
  intros Hr Hds Hcs. unfold absKey.
  rewrite (K_ancestor absKey0 Dir_absKey0_nil Dir_absKey0 absKey0_inj)
    by (by apply Forall_app).
  split; intros [Hne Hp].
  - split; [by intros ->|]. by eapply prefix_app_inv.
  - split; [by intros ?%app_inv_head|]. by apply prefix_app.
Qed.

(** * Facts about the accumulator *)

Lemma AddFile_loop_parents fuel : ∀ b path bytes,
  mu_s path < fuel →
  AddFile_loop fuel b path path bytes
  = Some (fold_left (λ b d, AddBloat b d bytes) (parents fuel path) b).
Proof.
  induction fuel as [|fuel IH]; intros b path bytes Hf; [lia|]. simpl.
  case_decide as Hd; [done|].
  assert (mu_s (filepath.Dir path) < mu_s path) by (apply Dir_mu; congruence).
  rewrite IH by lia. done.
Qed.

Lemma AddFile_loop_terminates b path bytes :
  AddFile_loop (S (depth path)) b path path bytes = Some (AddFile b path bytes).
Proof.
  unfold AddFile. rewrite AddFile_loop_parents; [done|].
  pose proof (mu_s_depth path). lia.
Qed.

Lemma AddFile_ancestors b path bytes :
  AddFile b path bytes = fold_left (λ b d, AddBloat b d bytes) (ancestors path) b.
Proof.
  unfold AddFile. rewrite AddFile_loop_parents; [done|].
  pose proof (mu_s_depth path). lia.
Qed.

Lemma wrap64_id z : int64 z → wrap64 z = z.
Proof.
  unfold int64, wrap64. intros H.
  rewrite Z.mod_small by lia. lia.
Qed.


Lemma add64_0_l z : int64 z → add64 0 z = z.
Proof. intros H. unfold add64. by rewrite Z.add_0_l, wrap64_id. Qed.

Lemma Inv_NewBloat absmode : Inv (NewBloat absmode).
Proof. intros k p H. simpl in H. by rewrite lookup_empty in H. Qed.

Lemma Inv_AddBloat b dir bytes : Inv b → Inv (AddBloat b dir bytes).
Proof.
  intros HI k p. unfold AddBloat.
  destruct (DirMap b !! dir) as [p0|] eqn:Hd; simpl.
  - intros Hk. destruct (HI _ _ Hk) as (info & Hp & Hpath).
    destruct (decide (p = p0)) as [->|Hne].
    + exists (add_bytes bytes info). split; [|done].
      rewrite list_lookup_alter_eq, Hp. done.
    + exists info. split; [|done]. by rewrite list_lookup_alter_ne.
  - rewrite lookup_insert. case_decide as Hk.
    + intros [= <-]. subst k. exists {| Path := dir; Bytes := bytes |}.
      split; [|done]. rewrite lookup_app_r, Nat.sub_diag by done. done.
    + intros Hp. destruct (HI _ _ Hp) as (info & Hinfo & Hpath).
      exists info. split; [|done]. rewrite lookup_app_l; [done|].
      by eapply lookup_lt_Some.
Qed.

Lemma Inv_fold_AddBloat bytes ds : ∀ b,
  Inv b → Inv (fold_left (λ b d, AddBloat b d bytes) ds b).
Proof.
  induction ds as [|d ds IH]; intros b HI; [done|]. simpl.
  by apply IH, Inv_AddBloat.
Qed.

Lemma Inv_AddFile b path bytes : Inv b → Inv (AddFile b path bytes).
Proof. rewrite AddFile_ancestors. apply Inv_fold_AddBloat. Qed.

Lemma Inv_Sort_from b order : Inv b → Inv (Sort_from b order).
Proof. done. Qed.

(** One [AddBloat] changes the total of its key and of no other. *)
Lemma totalBytes_AddBloat b dir bytes k :
  Inv b →
  totalBytes (AddBloat b dir bytes) k
  = if decide (k = dir)
    then Some (match totalBytes b dir with
               | None => bytes
               | Some t => add64 t bytes
               end)
    else totalBytes b k.
Proof.
  intros HI. unfold totalBytes, AddBloat.
  destruct (DirMap b !! dir) as [p0|] eqn:Hd; simpl.
  - destruct (HI _ _ Hd) as (info0 & Hp0 & Hpath0). rewrite Hp0. simpl.
    case_decide as Hk.
    + subst k. rewrite Hd. simpl. by rewrite list_lookup_alter_eq, Hp0.
    + destruct (DirMap b !! k) as [p|] eqn:Hp; [simpl|done].
      destruct (HI _ _ Hp) as (info & Hinfo & Hpath).
      rewrite list_lookup_alter_ne; [done|].
      intros ->. rewrite Hp0 in Hinfo. congruence.
  - rewrite lookup_insert. case_decide as Hk.
    + subst k. rewrite decide_True by done. simpl.
      rewrite lookup_app_r, Nat.sub_diag by done. done.
    + rewrite decide_False by done.
      destruct (DirMap b !! k) as [p|] eqn:Hp; [simpl|done].
      destruct (HI _ _ Hp) as (info & Hinfo & Hpath).
      rewrite lookup_app_l; [done|]. by eapply lookup_lt_Some.
Qed.

Lemma totalBytes_AddBloat_add b dir bytes :
  Inv b → int64 bytes →
  totalBytes (AddBloat b dir bytes) dir = Some (add64 (bytes_of b dir) bytes).
Proof.
  intros HI Hb. rewrite totalBytes_AddBloat, decide_True by done.
  unfold bytes_of. destruct (totalBytes b dir); simpl; [done|].
  by rewrite add64_0_l.
Qed.

(** A run of [AddBloat] over distinct keys adds once to each of them. *)
Lemma totalBytes_fold_AddBloat bytes ds : ∀ b k,
  Inv b → int64 bytes → NoDup ds →
  totalBytes (fold_left (λ b d, AddBloat b d bytes) ds b) k
  = if decide (k ∈ ds) then Some (add64 (bytes_of b k) bytes) else totalBytes b k.
Proof.
  induction ds as [|d ds IH]; intros b k HI Hb Hnd.
  { cbn [fold_left]. rewrite decide_False; [done|]. apply not_elem_of_nil. }
  apply NoDup_cons in Hnd as [Hd Hnd]. cbn [fold_left].
  rewrite IH by (try apply Inv_AddBloat; done).
  destruct (decide (k ∈ ds)) as [Hin|Hin].
  - rewrite decide_True by (by right).
    assert (k ≠ d) as Hne by (by intros ->).
    unfold bytes_of. rewrite totalBytes_AddBloat, decide_False by done. done.
  - destruct (decide (k = d)) as [->|Hne].
    + rewrite decide_True by (by left). by apply totalBytes_AddBloat_add.
    + rewrite decide_False by (by intros [?|?]%elem_of_cons).
      by rewrite totalBytes_AddBloat, decide_False.
Qed.

(** The loop leaves in the turn after the last contribution, whatever the
    fuel: with less it has not left, with more the result is the same. *)
Lemma AddFile_loop_fuel fuel : ∀ b path bytes,
  AddFile_loop fuel b path path bytes
  = if (length (ancestors path) <? fuel)%nat
    then Some (fold_left (λ b d, AddBloat b d bytes) (ancestors path) b)
    else None.
Proof.
  induction fuel as [|fuel IH]; intros b path bytes; [done|]. cbn [AddFile_loop].
  case_decide as Hd.
  - by rewrite ancestors_fixed.
  - rewrite ancestors_step by congruence. rewrite IH. done.
Qed.

(** The chain stops at the first fixed point of [Dir] and not before. *)
Lemma ancestors_first_fixed : ∀ path,
  let n := length (ancestors path) in
  filepath.Dir (Nat.iter n filepath.Dir path) = Nat.iter n filepath.Dir path
  ∧ ∀ i, i < n →
      filepath.Dir (Nat.iter i filepath.Dir path) ≠ Nat.iter i filepath.Dir path.
Proof.
  intros path. remember (mu_s path) as m eqn:Hm.
  revert path Hm. induction m as [m IH] using lt_wf_ind. intros path ->.
  destruct (decide (filepath.Dir path = path)) as [Heq|Hne].
  - rewrite ancestors_fixed by done. simpl. split; [done|lia].
  - rewrite ancestors_step by done. cbn [length].
    destruct (IH _ (Dir_mu _ Hne) _ eq_refl) as [IH1 IH2].
    rewrite Nat.iter_succ_r. split; [done|].
    intros [|i] Hi; [done|]. rewrite Nat.iter_succ_r. apply IH2. lia.
Qed.

(** * Facts about [sort.Slice] *)

Section sorting.
Context {A : Type} (less : A → A → bool).
Hypothesis less_asym : ∀ x y, less x y = true → less y x = false.

Local Abbreviation R := (not_less less).

Lemma bubble_hd x y sorted :
  less y x = false → HdRel R y sorted → HdRel R y (bubble less x sorted).
Proof.
  intros Hyx Hhd. destruct sorted as [|z sorted]; simpl.
  - by constructor.
  - destruct (less x z); constructor; [by inversion Hhd|done].
Qed.

Lemma bubble_Sorted x sorted : Sorted R sorted → Sorted R (bubble less x sorted).
Proof.
  induction 1 as [|y sorted Hs IH Hhd]; simpl.
  - by repeat constructor.
  - destruct (less x y) eqn:Hxy.
    + constructor; [done|]. apply bubble_hd; [by apply less_asym|done].
    + by repeat constructor.
Qed.

Lemma insertion_Sorted data : ∀ sorted,
  Sorted R sorted → Sorted R (fold_left (λ sorted x, bubble less x sorted) data sorted).
Proof.
  induction data as [|x data IH]; intros sorted Hs; [done|]. simpl.
  by apply IH, bubble_Sorted.
Qed.

Lemma Sorted_middle l1 x y l2 : Sorted R (l1 ++ x :: y :: l2) → R x y.
Proof.
  induction l1 as [|z l1 IH]; simpl; intros H.
  - apply Sorted_inv in H as [_ H]. by inversion H.
  - apply Sorted_inv in H as [H _]. by apply IH.
Qed.

(** No element of the sorted slice is [less] than the one before it. *)
Lemma sort_Slice_adjacent data i x y :
  sort_Slice less data !! i = Some x →
  sort_Slice less data !! S i = Some y →
  less y x = false.
Proof.
  unfold sort_Slice. intros Hx Hy.
  pose proof (insertion_Sorted data [] (Sorted_nil R)) as Hs.
  set (rp := fold_left _ data []) in *.
  pose proof (take_drop_middle _ _ _ Hx) as Hsplit.
  assert (drop (S i) (rev rp) = y :: drop (S (S i)) (rev rp)) as Hd
    by (by apply drop_S).
  rewrite Hd in Hsplit. apply (f_equal (@rev A)) in Hsplit.
  rewrite rev_involutive in Hsplit.
  rewrite rev_app_distr in Hsplit. simpl in Hsplit.
  rewrite <- !app_assoc in Hsplit. simpl in Hsplit.
  rewrite <- Hsplit in Hs. by apply Sorted_middle in Hs.
Qed.

(** Sorting moves the elements and keeps every one of them. *)
Lemma bubble_Permutation x sorted : bubble less x sorted ≡ₚ x :: sorted.
Proof.
  induction sorted as [|y sorted IH]; simpl; [done|].
  destruct (less x y); [|done]. rewrite IH. apply Permutation_swap.
Qed.

Lemma insertion_Permutation data : ∀ sorted,
  fold_left (λ sorted x, bubble less x sorted) data sorted ≡ₚ data ++ sorted.
Proof.
  induction data as [|x data IH]; intros sorted; [done|]. simpl.
  rewrite IH, bubble_Permutation. by rewrite Permutation_middle.
Qed.

Lemma sort_Slice_Permutation data : sort_Slice less data ≡ₚ data.
Proof.
  unfold sort_Slice. rewrite <- Permutation_rev, insertion_Permutation.
  by rewrite app_nil_r.
Qed.

End sorting.

Lemma bloatier_asym h x y : bloatier h x y = true → bloatier h y x = false.
Proof. unfold bloatier. intros H%Z.ltb_lt. apply Z.ltb_ge. lia. Qed.

Lemma Sort_Dirs b : Dirs (Sort b) ≡ₚ (map_to_list (DirMap b)).*2.
Proof. apply sort_Slice_Permutation. Qed.

Lemma Sort_from_descending b order : descending (Sort_from b order).
Proof.
  intros i x y Hx Hy. simpl in *.
  pose proof (sort_Slice_adjacent _ (bloatier_asym (heap b)) _ _ _ _ Hx Hy) as H.
  unfold bloatier in H. by apply Z.ltb_ge in H.
Qed.

(** The form of [totalBytes_fold_AddBloat] for [AddFile]. *)
Lemma totalBytes_AddFile b path size k :
  Inv b → int64 size →
  totalBytes (AddFile b path size) k
  = if decide (k ∈ ancestors path) then Some (add64 (bytes_of b k) size)
    else totalBytes b k.
Proof.
  intros HI Hs. rewrite AddFile_ancestors.
  apply totalBytes_fold_AddBloat; [done..|apply parents_NoDup].
Qed.

Lemma bytes_of_AddFile b path size k :
  Inv b → int64 size →
  bytes_of (AddFile b path size) k
  = if decide (k ∈ ancestors path) then add64 (bytes_of b k) size
    else bytes_of b k.
Proof.
  intros HI Hs. unfold bytes_of at 1. rewrite totalBytes_AddFile by done.
  by case_decide.
Qed.

Lemma Abs_fold_AddBloat bytes ds : ∀ b,
  Abs (fold_left (λ b d, AddBloat b d bytes) ds b) = Abs b.
Proof.
  induction ds as [|d ds IH]; intros b; [done|]. simpl. rewrite IH.
  unfold AddBloat. by destruct (DirMap b !! d).
Qed.

Lemma Abs_AddFile b path bytes : Abs (AddFile b path bytes) = Abs b.
Proof. rewrite AddFile_ancestors. apply Abs_fold_AddBloat. Qed.

Lemma tally_cons v calls b :
  tally (v :: calls) b
  = tally calls match key (Abs b) v with
                | Resolved fdir => AddFile b fdir (Size (v_info v))
                | Failed _ => b
                end.
Proof. reflexivity. Qed.

Lemma Abs_tally calls : ∀ b, Abs (tally calls b) = Abs b.
Proof.
  induction calls as [|v calls IH]; intros b; [done|].
  unfold tally in *. simpl. rewrite IH.
  destruct (key (Abs b) v); [apply Abs_AddFile|done].
Qed.

Lemma Inv_tally calls : ∀ b, Inv b → Inv (tally calls b).
Proof.
  induction calls as [|v calls IH]; intros b HI; [done|].
  unfold tally in *. simpl. apply IH.
  destruct (key (Abs b) v); [by apply Inv_AddFile|done].
Qed.

(** * Facts about the walk *)

Arguments AddFile : simpl never.

Ltac run_M :=
  unfold mbind, M_bind, mret, M_ret, print, eprint, panic, get_bloat, set_bloat;
  cbn [bloat stdout stderr].

Lemma World_eta w :
  {| bloat := bloat w; stdout := stdout w; stderr := stderr w |} = w.
Proof. by destruct w. Qed.

Lemma walkFn_error v detail w :
  v_err v = Some detail → walkFn v w = (w, Returns (Some detail)).
Proof. unfold walkFn. by intros ->. Qed.

Lemma walkFn_resolved v fdir w :
  v_err v = None → key (Abs (bloat w)) v = Resolved fdir →
  walkFn v w
  = ({| bloat := AddFile (bloat w) fdir (Size (v_info v));
        stdout := stdout w ++ [Progress (v_path v)];
        stderr := stderr w |}, Returns None).
Proof. unfold walkFn, key. intros -> Hk. run_M. by rewrite Hk. Qed.

Lemma walkFn_failed v perr w :
  v_err v = None → key (Abs (bloat w)) v = Failed perr →
  walkFn v w
  = ({| bloat := bloat w;
        stdout := stdout w ++ [Progress (v_path v)];
        stderr := stderr w ++ [CantProcess (v_path v) perr] |}, Panics None).
Proof. unfold walkFn, key. intros -> Hk. run_M. by rewrite Hk. Qed.

(** A walk whose visits all go through adds them up and echoes them. *)
Lemma Walk_fine calls : ∀ w,
  Forall (fine (Abs (bloat w))) calls →
  Walk calls walkFn w
  = ({| bloat := tally calls (bloat w);
        stdout := stdout w ++ (Progress ∘ v_path <$> calls);
        stderr := stderr w |}, Returns None).
Proof.
  induction calls as [|v calls IH]; intros w Hf.
  { cbn. by rewrite app_nil_r, World_eta. }
  apply Forall_cons in Hf as [[Herr [fdir Hk]] Hf].
  cbn [Walk]. unfold mbind, M_bind.
  rewrite (walkFn_resolved _ _ _ Herr Hk).
  rewrite IH by (cbn; by rewrite Abs_AddFile).
  rewrite tally_cons, Hk, fmap_cons. cbn [bloat stdout stderr].
  by rewrite <- app_assoc.
Qed.

(** A walk continues after a prefix that went through. *)
Lemma Walk_app seen rest w w' :
  Walk seen walkFn w = (w', Returns None) →
  Walk (seen ++ rest) walkFn w = Walk rest walkFn w'.
Proof.
  revert w. induction seen as [|v seen IH]; intros w H.
  { cbn in H. by inversion H. }
  cbn [Walk app] in *. unfold mbind, M_bind in *.
  destruct (walkFn v w) as [w1 [[e|]|p]]; [done|by apply IH|done].
Qed.

Lemma report_lines_spec h dirs : ∀ w,
  report_lines h dirs w
  = ({| bloat := bloat w;
        stdout := stdout w
                  ++ ((λ info, Ranked (Bytes (deref h info)) (Path (deref h info)))
                        <$> dirs);
        stderr := stderr w |}, Returns tt).
Proof.
  induction dirs as [|d dirs IH]; intros w.
  { cbn. by rewrite app_nil_r, World_eta. }
  cbn [report_lines]. unfold mbind, M_bind, print. rewrite IH. cbn.
  by rewrite <- app_assoc.
Qed.

(** Scanning prints nothing but the progress trace. *)
Lemma walkFn_progress v w w' r :
  walkFn v w = (w', r) → Forall is_progress (stdout w) → Forall is_progress (stdout w').
Proof.
  destruct (v_err v) as [detail|] eqn:He.
  { rewrite (walkFn_error _ _ _ He). by intros [= <- <-]. }
  destruct (key (Abs (bloat w)) v) as [fdir|perr] eqn:Hk.
  - rewrite (walkFn_resolved _ _ _ He Hk). intros [= <- <-] H. cbn.
    apply Forall_app. split; [done|]. repeat constructor. by eexists.
  - rewrite (walkFn_failed _ _ _ He Hk). intros [= <- <-] H. cbn.
    apply Forall_app. split; [done|]. repeat constructor. by eexists.
Qed.

Lemma Walk_progress calls : ∀ w w' r,
  Walk calls walkFn w = (w', r) →
  Forall is_progress (stdout w) → Forall is_progress (stdout w').
Proof.
  induction calls as [|v calls IH]; intros w w' r; cbn [Walk].
  { run_M. by intros [= <- <-]. }
  unfold mbind, M_bind. destruct (walkFn v w) as [w1 o] eqn:Hv.
  intros H Hw. pose proof (walkFn_progress _ _ _ _ Hv Hw) as Hw1.
  destruct o as [[e|]|p].
  - run_M. by inversion H; subst.
  - by eapply IH.
  - by inversion H; subst.
Qed.

Lemma wrap64_add_l a c : wrap64 (wrap64 a + c) = wrap64 (a + c).
Proof.
  unfold wrap64. f_equal.
  replace ((a + 2 ^ 63) mod 2 ^ 64 - 2 ^ 63 + c + 2 ^ 63)%Z
    with ((a + 2 ^ 63) mod 2 ^ 64 + c)%Z by lia.
  rewrite Zplus_mod_idemp_l. f_equal. lia.
Qed.

Lemma sizes_below_none absmode k calls :
  existsb (below absmode k) calls = false → sizes_below absmode k calls = 0%Z.
Proof.
  unfold sizes_below. induction calls as [|v calls IH]; [done|]. simpl.
  intros [Hv Hc]%orb_false_elim.
  rewrite filter_cons_False by congruence. by apply IH.
Qed.

Lemma sizes_below_cons absmode k v calls :
  sizes_below absmode k (v :: calls)
  = ((if below absmode k v then Size (v_info v) else 0)
     + sizes_below absmode k calls)%Z.
Proof.
  unfold sizes_below. destruct (below absmode k v) eqn:Hv.
  - by rewrite filter_cons_True.
  - rewrite filter_cons_False by congruence. lia.
Qed.

(** The total of a directory after a run of visits: the [int64] sum of the
    sizes of the visits below it, on top of what was there. *)
Lemma totalBytes_tally calls : ∀ b k,
  Inv b →
  Forall (fine (Abs b)) calls →
  Forall (λ v, int64 (Size (v_info v))) calls →
  totalBytes (tally calls b) k
  = if existsb (below (Abs b) k) calls
    then Some (wrap64 (bytes_of b k + sizes_below (Abs b) k calls))
    else totalBytes b k.
Proof.
  induction calls as [|v calls IH]; intros b k HI Hf Hs; [done|].
  apply Forall_cons in Hf as [[_ [fdir Hk]] Hf].
  apply Forall_cons in Hs as [Hv Hs].
  assert (below (Abs b) k v = bool_decide (k ∈ ancestors fdir)) as Hb.
  { unfold below. by rewrite Hk. }
  rewrite tally_cons, Hk, sizes_below_cons, Hb. cbn [existsb]. rewrite Hb.
  rewrite IH; rewrite ?Abs_AddFile; [|by apply Inv_AddFile|done..].
  rewrite (bytes_of_AddFile _ _ _ _ HI Hv), (totalBytes_AddFile _ _ _ _ HI Hv).
  destruct (decide (k ∈ ancestors fdir)) as [Hin|Hin].
  - rewrite bool_decide_eq_true_2 by done. cbn [orb].
    destruct (existsb (below (Abs b) k) calls) eqn:He.
    + unfold add64. rewrite wrap64_add_l. do 2 f_equal. lia.
    + rewrite (sizes_below_none _ _ _ He). unfold add64. do 2 f_equal. lia.
  - rewrite bool_decide_eq_false_2 by done. cbn [orb].
    destruct (existsb (below (Abs b) k) calls); done.
Qed.

(** ** The two modes on one tree *)

Lemma agree_AddFile root b_rel b_abs cs size :
  Forall name root → Forall name cs →
  Inv b_rel → Inv b_abs → int64 size →
  agree root b_rel b_abs →
  agree root (AddFile b_rel (relKey cs) size) (AddFile b_abs (absKey root cs) size).
Proof.
  intros Hr Hcs HIr HIa Hs Hag ds Hds.
  rewrite !totalBytes_AddFile by done.
  pose proof (relKey_ancestor ds cs Hds Hcs) as Hrel.
  pose proof (absKey_ancestor root ds cs Hr Hds Hcs) as Habs.
  unfold bytes_of. rewrite (Hag ds Hds).
  destruct (decide (relKey ds ∈ ancestors (relKey cs))) as [Hin|Hin].
  - rewrite decide_True; [done|]. by apply Habs, Hrel.
  - rewrite decide_False; [done|]. intros Hin'. by apply Hin, Hrel, Habs.
Qed.

Lemma agree_tally root calls : ∀ b_rel b_abs,
  Forall name root →
  Forall (beneath root) calls →
  Forall (λ v, int64 (Size (v_info v))) calls →
  Abs b_rel = false → Abs b_abs = true →
  Inv b_rel → Inv b_abs →
  agree root b_rel b_abs →
  agree root (tally calls b_rel) (tally calls b_abs).
Proof.
  induction calls as [|v calls IH];
    intros b_rel b_abs Hr Hb Hs Hrel Habs HIr HIa Hag; [done|].
  apply Forall_cons in Hb as [(_ & cs & Hcs & Hvr & Hva) Hb].
  apply Forall_cons in Hs as [Hv Hs].
  rewrite !tally_cons, Hrel, Habs. cbn [key]. rewrite Hvr, Hva.
  apply IH; [done..|by rewrite Abs_AddFile|by rewrite Abs_AddFile| | |].
  - by apply Inv_AddFile.
  - by apply Inv_AddFile.
  - by apply agree_AddFile.
Qed.

Lemma beneath_fine root absmode v : beneath root v → fine absmode v.
Proof.
  intros (Herr & cs & _ & Hr & Ha). split; [done|].
  destruct absmode; cbn [key]; eauto.
Qed.

(** In relative mode every record is the record of a directory at or below
    the root. *)
Lemma tally_relative_keys root calls k :
  Forall (beneath root) calls →
  Forall (λ v, int64 (Size (v_info v))) calls →
  is_Some (totalBytes (tally calls (NewBloat false)) k) →
  ∃ ds, Forall name ds ∧ k = relKey ds.
Proof.
  intros Hb Hs.
  rewrite totalBytes_tally; [|apply Inv_NewBloat| |done].
  2: { eapply Forall_impl; [exact Hb|]. intros v. apply beneath_fine. }
  cbn [Abs NewBloat].
  destruct (existsb (below false k) calls) eqn:He.
  2: { unfold totalBytes. cbn. rewrite lookup_empty. by intros [? [=]]. }
  intros _. apply existsb_exists in He as (v & Hv & Hbelow).
  rewrite <- list_elem_of_In in Hv.
  rewrite Forall_forall in Hb. destruct (Hb v Hv) as (_ & cs & Hcs & Hr & _).
  unfold below in Hbelow. cbn [key] in Hbelow. rewrite Hr in Hbelow.
  apply bool_decide_eq_true_1, ancestors_is_ancestor in Hbelow as [[n ->] _].
  rewrite (iter_Dir_K relKey Dir_relKey_nil Dir_relKey) by done.
  eexists. split; [|done]. by apply Forall_take.
Qed.

Section Host_facts.
Variable fs : string → list Visit.

Lemma Scan_fine basedir w :
  Forall (fine (Abs (bloat w))) (fs basedir) →
  Scan fs basedir w
  = ({| bloat := tally (fs basedir) (bloat w);
        stdout := stdout w ++ (Progress ∘ v_path <$> fs basedir);
        stderr := stderr w |}, Returns tt).
Proof.
  intros Hf. unfold Scan, mbind, M_bind. by rewrite Walk_fine.
Qed.

Lemma Scan_error basedir seen v later w1 w2 detail :
  fs basedir = seen ++ v :: later →
  Walk seen walkFn w1 = (w2, Returns None) →
  v_err v = Some detail →
  Scan fs basedir w1
  = ({| bloat := bloat w2; stdout := stdout w2;
        stderr := stderr w2 ++ [ErrorScanning basedir detail] |}, Returns tt).
Proof.
  intros Hfs Hseen Herr. unfold Scan. rewrite Hfs.
  unfold mbind at 1, M_bind at 1. rewrite (Walk_app _ _ _ _ Hseen).
  cbn [Walk]. unfold mbind, M_bind. by rewrite (walkFn_error _ _ _ Herr).
Qed.

Lemma Scan_panic basedir seen v later w1 w2 perr :
  fs basedir = seen ++ v :: later →
  Walk seen walkFn w1 = (w2, Returns None) →
  v_err v = None →
  key (Abs (bloat w2)) v = Failed perr →
  Scan fs basedir w1
  = ({| bloat := bloat w2;
        stdout := stdout w2 ++ [Progress (v_path v)];
        stderr := stderr w2 ++ [CantProcess (v_path v) perr] |}, Panics None).
Proof.
  intros Hfs Hseen Herr Hk. unfold Scan. rewrite Hfs.
  unfold mbind at 1, M_bind at 1. rewrite (Walk_app _ _ _ _ Hseen).
  cbn [Walk]. unfold mbind, M_bind. by rewrite (walkFn_failed _ _ _ Herr Hk).
Qed.

Lemma Scan_progress basedir w w' r :
  Scan fs basedir w = (w', r) →
  Forall is_progress (stdout w) → Forall is_progress (stdout w').
Proof.
  unfold Scan, mbind, M_bind.
  destruct (Walk (fs basedir) walkFn w) as [w1 o] eqn:Hw. intros H Hp.
  pose proof (Walk_progress _ _ _ _ Hw Hp) as Hp1. revert H.
  destruct o as [[e|]|p]; run_M; intros H; inversion H; subst; done.
Qed.

Lemma scan_all_progress args : ∀ w w' r,
  scan_all fs args w = (w', r) →
  Forall is_progress (stdout w) → Forall is_progress (stdout w').
Proof.
  induction args as [|arg args IH]; intros w w' r; cbn [scan_all].
  { run_M. by intros [= <- <-]. }
  unfold mbind, M_bind. destruct (Scan fs arg w) as [w1 o] eqn:Hs.
  intros H Hp. pose proof (Scan_progress _ _ _ _ Hs Hp) as Hp1.
  destruct o as [[]|p]; [by eapply IH|by inversion H; subst].
Qed.

Lemma scan_all_app args1 args2 w w1 :
  scan_all fs args1 w = (w1, Returns tt) →
  scan_all fs (args1 ++ args2) w = scan_all fs args2 w1.
Proof.
  revert w. induction args1 as [|arg args1 IH]; intros w H.
  { cbn in H. by inversion H. }
  cbn [scan_all app] in *. unfold mbind, M_bind in *.
  destruct (Scan fs arg w) as [w' [[]|p]]; [by apply IH|done].
Qed.

(** [main] on arguments that make it scan. *)
Lemma main_scans prog args w :
  scans args →
  main fs prog args w
  = match scan_all fs args
            {| bloat := NewBloat (1 <? length args)%nat;
               stdout := stdout w; stderr := stderr w |} with
    | (w', Returns _) =>
        ({| bloat := Sort (bloat w');
            stdout := stdout w' ++ ranked (Sort (bloat w'));
            stderr := stderr w' |}, Returns tt)
    | (w', Panics v) => (w', Panics v)
    end.
Proof.
  destruct args as [|helpp args]; [done|]. intros Hs. unfold main.
  rewrite bool_decide_eq_false_2 by done.
  unfold mbind, M_bind, set_bloat at 1. cbn [bloat stdout stderr].
  destruct (scan_all fs (helpp :: args) _) as [w' [[]|p]]; [|done].
  unfold Report. run_M. by rewrite report_lines_spec.
Qed.

End Host_facts.

(** * The properties of the accumulator *)

(** C1. [AddFile path size] adds [size], in [int64] arithmetic, to the
    total of every ancestor directory of [path] (every value reached by
    iterating [filepath.Dir] from [path], other than [path]) and leaves the
    total of every other key as it was; a key without a record counts as
    zero. When the sum does not leave the [int64] range the new total is
    the old total plus [size]. *)
Theorem AddFile_ancestor_sum b path size k :
  Inv b → int64 size →
  (is_ancestor k path →
     totalBytes (AddFile b path size) k = Some (add64 (bytes_of b k) size)
     ∧ (int64 (bytes_of b k + size) →
        bytes_of (AddFile b path size) k = (bytes_of b k + size)%Z))
  ∧ (¬ is_ancestor k path →
     totalBytes (AddFile b path size) k = totalBytes b k).
Proof.
  intros HI Hs.
  pose proof (totalBytes_fold_AddBloat size (ancestors path) b k HI Hs
                (parents_NoDup _ _)) as H.
  rewrite <- AddFile_ancestors in H.
  split; intros Hk.
  - rewrite decide_True in H by (by apply ancestors_is_ancestor).
    split; [done|]. intros Hsum. unfold bytes_of at 1. rewrite H. simpl.
    by apply wrap64_id.
  - rewrite decide_False in H by (by rewrite ancestors_is_ancestor).
    done.
Qed.

Lemma AddFile_ancestor_sum_witness :
  (totalBytes (AddFile (AddBloat (NewBloat false) "a" 5) "a/b/c" 7) "a" = Some 12%Z
   ∧ bytes_of (AddFile (AddBloat (NewBloat false) "a" 5) "a/b/c" 7) "a" = 12%Z)
  ∧ totalBytes (AddFile (AddBloat (NewBloat false) "a" 5) "a/b/c" 7) "c"
    = totalBytes (AddBloat (NewBloat false) "a" 5) "c".
Proof.
  destruct (AddFile_ancestor_sum (AddBloat (NewBloat false) "a" 5) "a/b/c" 7 "a")
    as [Hin _]; [apply Inv_AddBloat, Inv_NewBloat|unfold int64; lia|].
  destruct (AddFile_ancestor_sum (AddBloat (NewBloat false) "a" 5) "a/b/c" 7 "c")
    as [_ Hout]; [apply Inv_AddBloat, Inv_NewBloat|unfold int64; lia|].
  split.
  - destruct Hin as [H1 H2].
    + split; [by exists 1|done].
    + split; [exact H1|]. apply H2. vm_compute. split; [discriminate|reflexivity].
  - apply Hout. rewrite <- ancestors_is_ancestor. vm_compute.
    intros H. repeat (apply elem_of_cons in H as [H|H]; [discriminate H|]).
    by apply elem_of_nil in H.
Defined.

(** C3, as the code has it. When [path] is its own parent the loop
    computes the parent once, finds it equal and leaves: one turn, no
    contribution, the accumulator unchanged. *)
Theorem AddFile_fixed_point b path size :
  filepath.Dir path = path →
  AddFile_loop 1 b path path size = Some b ∧ AddFile b path size = b.
Proof.
  intros Hfix. split.
  - simpl. by rewrite decide_True.
  - by rewrite AddFile_ancestors, ancestors_fixed.
Qed.

Lemma AddFile_fixed_point_witness :
  AddFile_loop 1 (NewBloat true) "/" "/" 9 = Some (NewBloat true)
  ∧ AddFile (NewBloat true) "/" 9 = NewBloat true.
Proof. apply AddFile_fixed_point. reflexivity. Defined.

(** C3, as stated, fails: ["."] is its own parent, and after
    [AddFile "." 7] on the empty accumulator there is no record for ["."],
    where the claim expects a total of 7. *)
Lemma fixed_point_gets_nothing :
  filepath.Dir "." = "."
  ∧ totalBytes (AddFile (NewBloat false) "." 7) "." = None
  ∧ totalBytes (AddFile (NewBloat false) "." 7) "." ≠ Some 7%Z.
Proof. repeat split; [vm_compute; reflexivity..|vm_compute; discriminate]. Qed.

(** C5. After [Sort] the totals along [Dirs] never increase from one
    position to the next, whatever the order in which the map was
    traversed. *)
Theorem Sort_descending b :
  descending (Sort b) ∧ ∀ order, descending (Sort_from b order).
Proof. split; [|intros order]; apply Sort_from_descending. Qed.

(** C6. [AddFile] terminates: the loop makes [n] contributions, one for
    each ancestor, and leaves in the turn after the last of them, with [n]
    at most the number of components of [path] (as many as [path] has
    separators, plus one); for a key made of plain names, relative or
    absolute, [n] is the number of names. The loop leaves exactly at the
    first directory that is its own parent, and nowhere earlier. A file
    directly under such a directory causes exactly one contribution. *)
Theorem AddFile_terminates b path size :
  let n := length (ancestors path) in
  n ≤ depth path
  ∧ (∀ fuel, AddFile_loop fuel b path path size
             = if (n <? fuel)%nat then Some (AddFile b path size) else None)
  ∧ AddFile b path size = fold_left (λ b d, AddBloat b d size) (ancestors path) b
  ∧ filepath.Dir (Nat.iter n filepath.Dir path) = Nat.iter n filepath.Dir path
  ∧ (∀ i, i < n →
       filepath.Dir (Nat.iter i filepath.Dir path) ≠ Nat.iter i filepath.Dir path)
  ∧ (∀ cs, Forall name cs → path = relKey cs ∨ path = absKey0 cs → n = length cs)
  ∧ (filepath.Dir path ≠ path →
     filepath.Dir (filepath.Dir path) = filepath.Dir path →
     ancestors path = [filepath.Dir path]
     ∧ AddFile b path size = AddBloat b (filepath.Dir path) size).
Proof.
  intros n. subst n.
  split; [apply ancestors_length|].
  split; [intros fuel; by rewrite AddFile_loop_fuel, AddFile_ancestors|].
  split; [apply AddFile_ancestors|].
  destruct (ancestors_first_fixed path) as [H1 H2].
  split; [done|]. split; [done|]. split.
  { intros cs Hcs [->| ->];
      [by apply ancestors_relKey_length|by apply ancestors_absKey0_length]. }
  intros Hne Hfix.
  assert (ancestors path = [filepath.Dir path]) as Ha.
  { by rewrite ancestors_step, (ancestors_fixed _ Hfix). }
  split; [done|]. by rewrite AddFile_ancestors, Ha.
Qed.

Lemma AddFile_terminates_witness :
  ancestors "/file" = ["/"]
  ∧ AddFile (NewBloat true) "/file" 3 = AddBloat (NewBloat true) "/" 3.
Proof.
  apply (AddFile_terminates (NewBloat true) "/file" 3).
  - vm_compute. discriminate.
  - vm_compute. reflexivity.
Defined.

(** C7. [AddBloat] on a key without a record gives the state that
    [AddBloat] of zero followed by the same [AddBloat] gives; on the empty
    map with key ["x"] and 10 bytes in particular. *)
Theorem AddBloat_unseen_key b k n :
  DirMap b !! k = None → int64 n →
  AddBloat b k n = AddBloat (AddBloat b k 0) k n.
Proof.
  intros Hk Hn. unfold AddBloat at 1 3. rewrite Hk. unfold AddBloat. simpl.
  rewrite lookup_insert_eq. f_equal.
  rewrite alter_app_r_alt, Nat.sub_diag by done. simpl.
  unfold add_bytes. simpl. by rewrite add64_0_l.
Qed.

Lemma AddBloat_unseen_key_witness :
  AddBloat (NewBloat false) "x" 10
  = AddBloat (AddBloat (NewBloat false) "x" 0) "x" 10.
Proof. apply AddBloat_unseen_key; [reflexivity|unfold int64; lia]. Defined.

(** C10. Every key of [DirMap] points to a record whose [Path] is that
    key: this holds of the new accumulator, and [AddBloat], [AddFile] and
    [Sort] keep it. *)
Theorem Path_is_key :
  (∀ absmode, Inv (NewBloat absmode))
  ∧ (∀ b dir bytes, Inv b → Inv (AddBloat b dir bytes))
  ∧ (∀ b path bytes, Inv b → Inv (AddFile b path bytes))
  ∧ (∀ b, Inv b → Inv (Sort b)).
Proof.
  split; [apply Inv_NewBloat|].
  split; [apply Inv_AddBloat|].
  split; [apply Inv_AddFile|].
  intros b. apply Inv_Sort_from.
Qed.

Lemma Path_is_key_witness :
  Inv (Sort (AddFile (AddBloat (NewBloat false) "x" 10) "a/b/c" 7)).
Proof.
  destruct Path_is_key as (Hnew & Hbloat & Hfile & Hsort).
  apply Hsort, Hfile, Hbloat, Hnew.
Defined.

(** * The properties of the scan *)

(** C2, as stated, fails on the tree of the example scenario: the walk
    visits the directories too and their sizes are added, so the root
    totals 8342 bytes where its regular files add up to 150. *)
Lemma Scan_counts_directory_sizes :
  totalBytes (bloat (Scan fs_a "/a" (start ["/a"])).1) "." = Some 8342%Z
  ∧ totalBytes
      (tally (filter (λ v, IsDir (v_info v) = false) tree_a) (NewBloat false)) "."
    = Some 150%Z.
Proof. split; vm_compute; reflexivity. Qed.

(** C2, as the code has it. A scan whose visits all go through adds the
    reported size of every visit, regular file or directory alike, to each
    ancestor of the key of that visit: afterwards the total of a directory
    is the [int64] sum of the sizes of all visits below it, on top of what
    it was, and the walk function never looks at [IsDir]. *)
Theorem Scan_counts_every_entry fs basedir w k :
  Inv (bloat w) →
  Forall (fine (Abs (bloat w))) (fs basedir) →
  Forall (λ v, int64 (Size (v_info v))) (fs basedir) →
  ∃ w', Scan fs basedir w = (w', Returns tt)
    ∧ totalBytes (bloat w') k
      = if existsb (below (Abs (bloat w)) k) (fs basedir)
        then Some (wrap64 (bytes_of (bloat w) k
                           + sizes_below (Abs (bloat w)) k (fs basedir)))
        else totalBytes (bloat w) k.
Proof.
  intros HI Hf Hs. eexists. split; [by apply Scan_fine|].
  cbn [bloat]. by apply totalBytes_tally.
Qed.

Lemma Scan_counts_every_entry_witness :
  ∃ w', Scan fs_a "/a" (start ["/a"]) = (w', Returns tt)
    ∧ totalBytes (bloat w') "." = Some (wrap64 (0 + (4096 + (100 + (4096 + (50 + 0)))))).
Proof.
  apply (Scan_counts_every_entry fs_a "/a" (start ["/a"]) ".").
  - apply Inv_NewBloat.
  - repeat constructor; by eexists.
  - repeat constructor; vm_compute; (discriminate || reflexivity).
Defined.

(** C8. When the key of a visited entry does not resolve, the message
    [can't process <path>: <error>] goes to the error stream and the
    process panics there and then: the entry is not skipped, no later
    entry or root is looked at, and [main] never reaches [Sort] and
    [Report], so that the output holds the progress trace and no line of
    the report. *)
Theorem resolution_failure_aborts fs prog args1 basedir args2 seen v later
    w1 w2 perr :
  let args := args1 ++ basedir :: args2 in
  scans args →
  scan_all fs args1 (start args) = (w1, Returns tt) →
  fs basedir = seen ++ v :: later →
  Walk seen walkFn w1 = (w2, Returns None) →
  v_err v = None →
  key (Abs (bloat w2)) v = Failed perr →
  main fs prog args boot
  = ({| bloat := bloat w2;
        stdout := stdout w2 ++ [Progress (v_path v)];
        stderr := stderr w2 ++ [CantProcess (v_path v) perr] |}, Panics None)
  ∧ Forall is_progress (stdout w2 ++ [Progress (v_path v)])
  ∧ stderr_text (CantProcess (v_path v) perr)
    = "can't process " +:+ v_path v +:+ ": " +:+ perr +:+ newline.
Proof.
  intros args Hargs H1 Hfs Hseen Herr Hk.
  assert (scan_all fs args (start args)
          = ({| bloat := bloat w2;
                stdout := stdout w2 ++ [Progress (v_path v)];
                stderr := stderr w2 ++ [CantProcess (v_path v) perr] |},
             Panics None)) as Hrun.
  { subst args. rewrite (scan_all_app _ _ _ _ _ H1). cbn [scan_all].
    unfold mbind, M_bind.
    by rewrite (Scan_panic _ _ _ _ _ _ _ _ Hfs Hseen Herr Hk). }
  split; [|split; [|done]].
  - rewrite main_scans by done. change (stdout boot) with (@nil stdout_line).
    change (stderr boot) with (@nil stderr_line).
    fold (start args). by rewrite Hrun.
  - pose proof (scan_all_progress _ _ _ _ _ Hrun) as H. apply H. constructor.
Qed.

Lemma resolution_failure_aborts_witness :
  main fs_rs "bloat" ["/r"] boot
  = ({| bloat := bloat wr_ex;
        stdout := stdout wr_ex ++ [Progress "/r/g"];
        stderr := stderr wr_ex
                  ++ [CantProcess "/r/g" "Rel: can't make /r/g relative to /r"] |},
     Panics None)
  ∧ Forall is_progress (stdout wr_ex ++ [Progress "/r/g"])
  ∧ stderr_text (CantProcess "/r/g" "Rel: can't make /r/g relative to /r")
    = "can't process " +:+ "/r/g" +:+ ": "
      +:+ "Rel: can't make /r/g relative to /r" +:+ newline.
Proof.
  apply (resolution_failure_aborts fs_rs "bloat" [] "/r" []
           (take 1 tree_r)
           {| v_path := "/r/g"; v_info := {| Size := 20; IsDir := false |};
              v_err := None; v_Abs := Failed "getwd: no such file or directory";
              v_Rel := Failed "Rel: can't make /r/g relative to /r" |}
           (drop 2 tree_r) (start ["/r"]) wr_ex).
  - simpl. intros [H|[H|H]]; discriminate H.
  - reflexivity.
  - reflexivity.
  - vm_compute. reflexivity.
  - reflexivity.
  - vm_compute. reflexivity.
Defined.

(** C9. When the walk of a root meets an entry that cannot be visited,
    [error scanning <root>: <detail>] goes to the error stream, the scan of
    that root ends with what it had added before the entry, the scan of
    the next root starts from there, and once the roots are done [main]
    sorts and prints the report of all that was added: one line for each
    record of the map. *)
Theorem traversal_error_abandons_root fs prog args1 basedir args2 seen v later
    w1 w2 detail :
  let args := args1 ++ basedir :: args2 in
  let w3 := {| bloat := bloat w2; stdout := stdout w2;
               stderr := stderr w2 ++ [ErrorScanning basedir detail] |} in
  scans args →
  scan_all fs args1 (start args) = (w1, Returns tt) →
  fs basedir = seen ++ v :: later →
  Walk seen walkFn w1 = (w2, Returns None) →
  v_err v = Some detail →
  Scan fs basedir w1 = (w3, Returns tt)
  ∧ stderr_text (ErrorScanning basedir detail)
    = "error scanning " +:+ basedir +:+ ": " +:+ detail +:+ newline
  ∧ scan_all fs (basedir :: args2) w1 = scan_all fs args2 w3
  ∧ ∀ w4, scan_all fs args2 w3 = (w4, Returns tt) →
      main fs prog args boot
      = ({| bloat := Sort (bloat w4);
            stdout := stdout w4 ++ ranked (Sort (bloat w4));
            stderr := stderr w4 |}, Returns tt)
      ∧ Dirs (Sort (bloat w4)) ≡ₚ (map_to_list (DirMap (bloat w4))).*2.
Proof.
  intros args w3 Hargs H1 Hfs Hseen Herr.
  pose proof (Scan_error _ _ _ _ _ _ _ _ Hfs Hseen Herr) as Hscan.
  fold w3 in Hscan.
  assert (scan_all fs (basedir :: args2) w1 = scan_all fs args2 w3) as Hnext.
  { cbn [scan_all]. unfold mbind, M_bind. by rewrite Hscan. }
  split; [done|]. split; [done|]. split; [done|].
  intros w4 H4. split; [|apply Sort_Dirs]. rewrite main_scans by done.
  change (stdout boot) with (@nil stdout_line).
  change (stderr boot) with (@nil stderr_line). fold (start args).
  subst args. by rewrite (scan_all_app _ _ _ _ _ H1), Hnext, H4.
Qed.

Lemma traversal_error_abandons_root_witness :
  Scan fs_rs "/s" w1_ex = (w3_ex, Returns tt)
  ∧ main fs_rs "bloat" args_ex boot
    = ({| bloat := Sort (bloat w4_ex);
          stdout := stdout w4_ex ++ ranked (Sort (bloat w4_ex));
          stderr := stderr w4_ex |}, Returns tt).
Proof.
  destruct (traversal_error_abandons_root fs_rs "bloat" ["/a"] "/s" ["/a"]
              (take 1 tree_s)
              {| v_path := "/s/d"; v_info := {| Size := 0; IsDir := true |};
                 v_err := Some "open /s/d: permission denied";
                 v_Abs := Resolved "/s/d"; v_Rel := Resolved "d" |}
              (drop 2 tree_s) w1_ex w2_ex "open /s/d: permission denied")
    as (Hscan & _ & _ & Hmain).
  - simpl. intros [H|[H|H]]; discriminate H.
  - vm_compute. reflexivity.
  - reflexivity.
  - vm_compute. reflexivity.
  - reflexivity.
  - split; [exact Hscan|]. apply (Hmain w4_ex). vm_compute. reflexivity.
Defined.

(** C4, as stated, fails on the tree of the example scenario: scanned in
    absolute mode the root [/a] brings a record for its own parent [/],
    which the relative scan has no counterpart of, so that no renaming of
    keys carries the three relative records onto the four absolute ones. *)
Lemma modes_differ_above_root :
  ¬ same_up_to_keys (bloat (Scan fs_a "/a" (fresh false)).1)
                    (bloat (Scan fs_a "/a" (fresh true)).1).
Proof.
  intros (ρ & _ & Htot & Honto).
  destruct (Honto "/") as [k Hk]; [by vm_compute; eexists|].
  specialize (Htot k). rewrite <- Hk in Htot.
  assert (totalBytes (bloat (Scan fs_a "/a" (fresh true)).1) "/" = Some 12438%Z)
    as Hroot by (vm_compute; reflexivity).
  rewrite Hroot in Htot. unfold totalBytes in Htot.
  destruct (DirMap (bloat (Scan fs_a "/a" (fresh false)).1) !! k) as [p|];
    [|discriminate Htot].
  assert (heap (bloat (Scan fs_a "/a" (fresh false)).1)
          = [ {| Path := "."; Bytes := 8342 |}; {| Path := "b"; Bytes := 100 |};
              {| Path := "c"; Bytes := 50 |} ]) as Hheap
    by (vm_compute; reflexivity).
  cbn [mbind option_bind] in Htot. rewrite Hheap in Htot.
  destruct p as [|[|[|p]]]; discriminate Htot.
Qed.

(** C4, as the code has it. On a tree whose entries lie at or below the
    root, the scan in relative mode and the scan in absolute mode give
    every directory at or below the root the same total, the one under its
    relative key and the other under its absolute key, and the relative
    scan has no other records. (The absolute scan also keeps records for
    the directories above the root.) *)
Theorem modes_agree_below_root fs basedir root :
  Forall name root →
  Forall (beneath root) (fs basedir) →
  Forall (λ v, int64 (Size (v_info v))) (fs basedir) →
  ∃ w_rel w_abs,
    Scan fs basedir (fresh false) = (w_rel, Returns tt)
    ∧ Scan fs basedir (fresh true) = (w_abs, Returns tt)
    ∧ (∀ ds, Forall name ds →
         totalBytes (bloat w_rel) (relKey ds)
         = totalBytes (bloat w_abs) (absKey root ds))
    ∧ (∀ k, is_Some (totalBytes (bloat w_rel) k) →
         ∃ ds, Forall name ds ∧ k = relKey ds).
Proof.
  intros Hr Hb Hs.
  assert (∀ absmode, Forall (fine absmode) (fs basedir)) as Hfine.
  { intros absmode. eapply Forall_impl; [exact Hb|]. intros v. apply beneath_fine. }
  do 2 eexists. split; [by apply Scan_fine, Hfine|].
  split; [by apply Scan_fine, Hfine|]. cbn [bloat fresh]. split.
  - apply agree_tally; try done; apply Inv_NewBloat.
  - intros k. by apply tally_relative_keys with (root := root).
Qed.

Lemma modes_agree_below_root_witness :
  ∃ w_rel w_abs,
    Scan fs_a "/a" (fresh false) = (w_rel, Returns tt)
    ∧ Scan fs_a "/a" (fresh true) = (w_abs, Returns tt)
    ∧ (∀ ds, Forall name ds →
         totalBytes (bloat w_rel) (relKey ds)
         = totalBytes (bloat w_abs) (absKey [nm "a"] ds))
    ∧ (∀ k, is_Some (totalBytes (bloat w_rel) k) →
         ∃ ds, Forall name ds ∧ k = relKey ds).
Proof.
  assert (∀ s, nm s ≠ [] → slashes (nm s) = 0 →
               nm s ≠ nm "." → nm s ≠ nm ".." → name (nm s)) as Hname
    by (by intros s ????).
  apply (modes_agree_below_root fs_a "/a" [nm "a"]).
  - repeat constructor; try apply Hname; (discriminate || reflexivity).
  - repeat apply Forall_cons_2; try apply Forall_nil_2;
      (split; [reflexivity|]).
    + exists []. repeat split; constructor.
    + exists [nm "b"]. split; [|split; reflexivity].
      repeat constructor; try apply Hname; (discriminate || reflexivity).
    + exists [nm "b"; nm "file1"]. split; [|split; reflexivity].
      repeat constructor; try apply Hname; (discriminate || reflexivity).
    + exists [nm "c"]. split; [|split; reflexivity].
      repeat constructor; try apply Hname; (discriminate || reflexivity).
    + exists [nm "c"; nm "file2"]. split; [|split; reflexivity].
      repeat constructor; try apply Hname; (discriminate || reflexivity).
  - repeat constructor; vm_compute; (discriminate || reflexivity).
Defined.

(** * Further facts about [filepath] *)

Section rooted_facts.
Import filepath.

Lemma clean_nonempty x : clean x ≠ [].
Proof.
  unfold clean. destruct x as [|c rest]; [done|].
  destruct (IsPathSeparator c);
    match goal with
    | |- context [(length ?o =? 0)%nat] => by destruct o
    end.
Qed.

(** The fixed points of [Dir] on bytes. *)
Lemma dir_fixed l : dir l = l → l = ["."%char] ∨ l = [Separator].
Proof.
  intros Hfix. unfold dir in Hfix.
  destruct (last_sep_spec l (length l)) as [Hs Hl]; [done|].
  rewrite firstn_all in Hs.
  destruct Hl as [Hl|Hl].
  - rewrite Hl, take_0 in Hfix. by left.
  - destruct (clean_slashes _ Hl) as [H|H].
    + rewrite H in Hfix. by right.
    + rewrite Hfix in H. lia.
Qed.

Lemma backtrack_ge buf dotdot w : dotdot ≤ w → dotdot ≤ backtrack buf dotdot w.
Proof.
  induction w as [|w IH]; intros Hw; [done|]. cbn [backtrack].
  destruct (dotdot <? S w)%nat eqn:Hlt; cbn [andb]; [|done].
  destruct (negb _); [|done]. apply Nat.ltb_lt in Hlt. apply IH. lia.
Qed.

Lemma starts_sep_app out l : out ≠ [] → starts_sep (out ++ l) = starts_sep out.
Proof. by destruct out. Qed.

Lemma starts_sep_take k l : 1 ≤ k → starts_sep (take k l) = starts_sep l.
Proof. destruct k; [lia|]. by destruct l. Qed.

Lemma starts_sep_take_false k l : starts_sep l = false → starts_sep (take k l) = false.
Proof. destruct k, l; done. Qed.

(** A rooted buffer stays rooted. *)
Lemma clean_loop_rooted fuel : ∀ rest out,
  starts_sep out = true →
  starts_sep (clean_loop fuel true rest out 1) = true.
Proof.
  induction fuel as [|fuel IH]; intros rest out Hout; [by destruct rest|].
  destruct rest as [|ch rest1]; [done|]. cbn [clean_loop].
  assert (out ≠ []) as Hne by (by intros ->).
  destruct (IsPathSeparator ch) eqn:Hch; [by apply IH|].
  destruct (is_dot ch && end_or_sep rest1); [by apply IH|].
  destruct (is_dot ch && is_dot (hd "000"%char rest1) && end_or_sep (tl rest1)).
  { destruct (1 <? length out)%nat eqn:Hw; cbn [negb]; [|by apply IH].
    apply Nat.ltb_lt in Hw. apply IH. rewrite starts_sep_take; [done|].
    apply backtrack_ge. lia. }
  destruct (element (ch :: rest1)) as [e rest'].
  apply IH. rewrite starts_sep_app.
  - destruct (_ || _); [by rewrite starts_sep_app|done].
  - destruct (_ || _); [by destruct out|done].
Qed.

(** A buffer that does not start with a separator never comes to. *)
Lemma clean_loop_unrooted fuel : ∀ rest out dotdot,
  starts_sep out = false →
  starts_sep (clean_loop fuel false rest out dotdot) = false.
Proof.
  induction fuel as [|fuel IH]; intros rest out dotdot Hout; [by destruct rest|].
  destruct rest as [|ch rest1]; [done|]. cbn [clean_loop].
  destruct (IsPathSeparator ch) eqn:Hch; [by apply IH|].
  destruct (is_dot ch && end_or_sep rest1); [by apply IH|].
  destruct (is_dot ch && is_dot (hd "000"%char rest1) && end_or_sep (tl rest1)).
  { destruct (dotdot <? length out)%nat; cbn [negb].
    - apply IH. by apply starts_sep_take_false.
    - apply IH. destruct out as [|o out]; [done|]. done. }
  destruct (element (ch :: rest1)) as [e rest'] eqn:He.
  cbn [element] in He. rewrite Hch in He.
  destruct (element rest1) as [e1 r1]. injection He as <- <-.
  apply IH. cbn [andb orb negb]. destruct out as [|o out]; [|done].
  cbn [length Nat.eqb negb app starts_sep]. exact Hch.
Qed.

Lemma clean_starts_sep x : starts_sep (clean x) = starts_sep x.
Proof.
  destruct x as [|c rest]; [done|]. unfold clean. cbn [starts_sep].
  destruct (IsPathSeparator c) eqn:Hc.
  - pose proof (clean_loop_rooted (length (c :: rest)) rest [Separator] eq_refl) as H.
    destruct (clean_loop _ true rest [Separator] 1); done.
  - pose proof (clean_loop_unrooted (length (c :: rest)) (c :: rest) [] 0 eq_refl) as H.
    destruct (clean_loop _ false (c :: rest) [] 0); done.
Qed.

Lemma last_sep_rooted l n :
  starts_sep l = true → 1 ≤ n → 1 ≤ last_sep l n.
Proof.
  intros Hl. induction n as [|n IH]; intros Hn; [lia|]. cbn [last_sep].
  destruct (IsPathSeparator (index l n)) eqn:Hi; [lia|].
  destruct n as [|n]; [|apply IH; lia].
  destruct l as [|c l]; [done|]. unfold index in Hi. simpl in Hi, Hl. congruence.
Qed.

(** [Dir] keeps a rooted path rooted and any other path unrooted. *)
Lemma dir_starts_sep l : starts_sep (dir l) = starts_sep l.
Proof.
  unfold dir. rewrite clean_starts_sep.
  destruct (starts_sep l) eqn:Hl.
  - rewrite starts_sep_take; [done|]. apply last_sep_rooted; [done|].
    destruct l; [done|simpl; lia].
  - by apply starts_sep_take_false.
Qed.

End rooted_facts.

Lemma Dir_nonempty path : filepath.Dir path ≠ "".
Proof.
  unfold filepath.Dir. intros H.
  apply (f_equal String.list_ascii_of_string) in H.
  rewrite String.list_ascii_of_string_of_list_ascii in H.
  by apply clean_nonempty in H.
Qed.

(** The directories that are their own parent are [.] and [/]. *)
Lemma Dir_fixed_iff path : filepath.Dir path = path ↔ path = "." ∨ path = "/".
Proof.
  split; [|by intros [->| ->]].
  intros Hfix. unfold filepath.Dir in Hfix.
  apply (f_equal String.list_ascii_of_string) in Hfix.
  rewrite String.list_ascii_of_string_of_list_ascii in Hfix.
  apply dir_fixed in Hfix as [H|H];
    apply (f_equal String.string_of_list_ascii) in H;
    rewrite String.string_of_list_ascii_of_string in H; [by left|by right].
Qed.

Lemma Dir_rooted path : rooted_path (filepath.Dir path) = rooted_path path.
Proof.
  unfold rooted_path, filepath.Dir.
  rewrite String.list_ascii_of_string_of_list_ascii. apply dir_starts_sep.
Qed.

Lemma Dir_top path : top_of (filepath.Dir path) = top_of path.
Proof. unfold top_of. by rewrite Dir_rooted. Qed.

Lemma fixed_top path : filepath.Dir path = path → path = top_of path.
Proof. by intros [->| ->]%Dir_fixed_iff. Qed.

(** The parent chain of a path that is not its own parent ends at [/] for
    a rooted path and at [.] for any other. *)
Lemma ancestors_last path :
  filepath.Dir path ≠ path → last (ancestors path) = Some (top_of path).
Proof.
  remember (mu_s path) as m eqn:Hm. revert path Hm.
  induction m as [m IH] using lt_wf_ind. intros path -> Hne.
  rewrite ancestors_step by done. rewrite <- Dir_top.
  destruct (decide (filepath.Dir (filepath.Dir path) = filepath.Dir path))
    as [Hfix|Hmove].
  - rewrite ancestors_fixed by done. cbn. f_equal. by apply fixed_top.
  - pose proof (IH _ (Dir_mu _ Hne) _ eq_refl Hmove) as Hlast.
    destruct (ancestors (filepath.Dir path)) as [|a l] eqn:Ha; [done|].
    by rewrite last_cons, Hlast.
Qed.

(** * Further facts about the accumulator *)

Lemma DirMap_AddBloat b dir bytes :
  dom (DirMap (AddBloat b dir bytes)) = {[dir]} ∪ dom (DirMap b).
Proof.
  unfold AddBloat. destruct (DirMap b !! dir) as [p|] eqn:Hd; cbn [DirMap].
  - apply elem_of_dom_2 in Hd. symmetry. apply subseteq_union_1_L.
    by apply singleton_subseteq_l.
  - by rewrite dom_insert_L.
Qed.

Lemma DirMap_fold_AddBloat bytes ds : ∀ b,
  dom (DirMap (fold_left (λ b d, AddBloat b d bytes) ds b))
  = dom (DirMap b) ∪ list_to_set ds.
Proof.
  induction ds as [|d ds IH]; intros b; cbn [fold_left list_to_set].
  - by rewrite union_empty_r_L.
  - rewrite IH, DirMap_AddBloat.
    by rewrite (union_comm_L {[d]}), <- union_assoc_L.
Qed.

Lemma Dirs_fold_AddBloat bytes ds : ∀ b,
  Dirs (fold_left (λ b d, AddBloat b d bytes) ds b) = Dirs b.
Proof.
  induction ds as [|d ds IH]; intros b; [done|]. cbn [fold_left]. rewrite IH.
  unfold AddBloat. by destruct (DirMap b !! d).
Qed.

Lemma Dirs_AddFile b path bytes : Dirs (AddFile b path bytes) = Dirs b.
Proof. rewrite AddFile_ancestors. apply Dirs_fold_AddBloat. Qed.




(** A pointer of the map belongs to one key only. *)
Lemma Inv_pointer b k1 k2 p :
  Inv b → DirMap b !! k1 = Some p → DirMap b !! k2 = Some p → k1 = k2.
Proof.
  intros HI H1 H2.
  destruct (HI _ _ H1) as (i1 & Hi1 & <-). destruct (HI _ _ H2) as (i2 & Hi2 & <-).
  congruence.
Qed.

Lemma totalBytes_deref b k p :
  Inv b → DirMap b !! k = Some p →
  Path (deref (heap b) p) = k ∧ totalBytes b k = Some (Bytes (deref (heap b) p)).
Proof.
  intros HI Hk. destruct (HI _ _ Hk) as (info & Hp & Hpath).
  unfold deref, totalBytes. rewrite Hk. cbn. by rewrite Hp.
Qed.

(** A line of the report made from a live pointer tells the total that
    its directory has now. *)
Lemma ranked_true b n path :
  Inv b → Dirs_live b → Ranked n path ∈ ranked b → totalBytes b path = Some n.
Proof.
  intros HI Hlive Hin. unfold ranked in Hin.
  apply list_elem_of_fmap in Hin as (p & Heq & Hp). injection Heq as -> ->.
  destruct (Hlive _ Hp) as [k Hk].
  by destruct (totalBytes_deref _ _ _ HI Hk) as [-> ->].
Qed.

Lemma Dirs_live_Sort b : Dirs_live (Sort b).
Proof.
  intros p Hp. rewrite Sort_Dirs in Hp.
  apply list_elem_of_fmap in Hp as ([k p'] & -> & Hin).
  exists k. by apply elem_of_map_to_list in Hin.
Qed.

Lemma Dirs_live_AddBloat b dir bytes : Dirs_live b → Dirs_live (AddBloat b dir bytes).
Proof.
  intros Hlive p Hp.
  assert (p ∈ Dirs b) as Hp' by (unfold AddBloat in Hp; by destruct (DirMap b !! dir)).
  destruct (Hlive _ Hp') as [k Hk]. exists k. unfold AddBloat.
  destruct (DirMap b !! dir) as [q|] eqn:Hd; cbn [DirMap]; [done|].
  rewrite lookup_insert_ne; [done|]. by intros ->; rewrite Hd in Hk.
Qed.

Lemma Dirs_live_fold_AddBloat bytes ds : ∀ b,
  Dirs_live b → Dirs_live (fold_left (λ b d, AddBloat b d bytes) ds b).
Proof.
  induction ds as [|d ds IH]; intros b Hl; [done|]. cbn [fold_left].
  by apply IH, Dirs_live_AddBloat.
Qed.

(** * Further properties of the accumulator *)

(** X1. [AddFile] makes no contribution exactly for the paths [.] and [/],
    the two directories that are their own parent. For any other path the
    last contribution goes to [/] when the path is rooted and to [.]
    otherwise, so that this top record grows by the size of every file
    added. *)
Theorem AddFile_reaches_top b path size :
  (ancestors path = [] ↔ path = "." ∨ path = "/")
  ∧ (path ≠ "." → path ≠ "/" →
     last (ancestors path) = Some (top_of path)
     ∧ (Inv b → int64 size →
        totalBytes (AddFile b path size) (top_of path)
        = Some (add64 (bytes_of b (top_of path)) size))).
Proof.
  split.
  - rewrite <- Dir_fixed_iff. split; [|apply ancestors_fixed].
    intros Hnil. destruct (decide (filepath.Dir path = path)) as [|Hne]; [done|].
    by rewrite ancestors_step in Hnil.
  - intros H1 H2.
    assert (filepath.Dir path ≠ path) as Hne by (rewrite Dir_fixed_iff; tauto).
    pose proof (ancestors_last _ Hne) as Hlast. split; [done|].
    intros HI Hs. rewrite totalBytes_AddFile by done. rewrite decide_True; [done|].
    apply last_Some in Hlast as [l ->]. apply elem_of_app. right. by left.
Qed.

Lemma AddFile_reaches_top_witness :
  last (ancestors "/srv/data/log.txt") = Some (top_of "/srv/data/log.txt")
  ∧ totalBytes (AddFile (NewBloat true) "/srv/data/log.txt" 5)
               (top_of "/srv/data/log.txt")
    = Some (add64 (bytes_of (NewBloat true) (top_of "/srv/data/log.txt")) 5).
Proof.
  destruct (AddFile_reaches_top (NewBloat true) "/srv/data/log.txt" 5)
    as [_ Htop].
  destruct Htop as [Hlast Htotal]; [discriminate..|].
  split; [exact Hlast|]. apply Htotal; [apply Inv_NewBloat|unfold int64; lia].
Defined.

(** X2. The keys that [AddFile] leaves in the map are the keys that were
    there and the ancestors of the path, no more and no fewer; the path
    itself is not among the ancestors, and no ancestor is the empty
    string. *)
Theorem AddFile_keys b path size :
  dom (DirMap (AddFile b path size))
  = dom (DirMap b) ∪ list_to_set (ancestors path)
  ∧ ∀ k, k ∈ ancestors path → k ≠ path ∧ k ≠ "".
Proof.
  split.
  - rewrite AddFile_ancestors. apply DirMap_fold_AddBloat.
  - intros k [[n ->] Hne]%ancestors_is_ancestor. split; [done|].
    rewrite Nat.iter_succ. apply Dir_nonempty.
Qed.



(** * Further properties of [Sort] and [Report] *)

Lemma pointers_NoDup b : Inv b → NoDup (map_to_list (DirMap b)).*2.
Proof.
  intros HI. apply NoDup_fmap_2_strong; [|apply NoDup_map_to_list].
  intros [k1 p1] [k2 p2] H1%elem_of_map_to_list H2%elem_of_map_to_list Heq.
  cbn in Heq. subst p2. f_equal. by eapply Inv_pointer.
Qed.

(** X4. After [Sort] the report is the map, line for line: a line with
    total [n] and path [path] is printed exactly when the map has the
    record of [path] with total [n], no line comes twice, and there are as
    many lines as keys. *)
Theorem report_is_the_map b :
  Inv b →
  (∀ n path, Ranked n path ∈ ranked (Sort b) ↔ totalBytes b path = Some n)
  ∧ NoDup (ranked (Sort b))
  ∧ length (ranked (Sort b)) = size (DirMap b).
Proof.
  intros HI. split; [|split].
  - intros n path. split.
    + apply (ranked_true (Sort b)); [done|apply Dirs_live_Sort].
    + intros Ht. unfold totalBytes in Ht.
      destruct (DirMap b !! path) as [p|] eqn:Hk; [|done].
      destruct (totalBytes_deref _ _ _ HI Hk) as [Hpath Htot].
      unfold totalBytes in Htot. rewrite Hk in Htot. rewrite Htot in Ht.
      injection Ht as <-. unfold ranked. apply list_elem_of_fmap.
      exists p. split; [by rewrite <- Hpath at 1|].
      rewrite Sort_Dirs. apply list_elem_of_fmap. exists (path, p).
      split; [done|]. by apply elem_of_map_to_list.
  - unfold ranked. apply NoDup_fmap_2_strong.
    + intros p1 p2 Hp1 Hp2 Heq. injection Heq as _ Hpath.
      destruct (Dirs_live_Sort b _ Hp1) as [k1 Hk1].
      destruct (Dirs_live_Sort b _ Hp2) as [k2 Hk2].
      destruct (totalBytes_deref _ _ _ HI Hk1) as [Hd1 _].
      destruct (totalBytes_deref _ _ _ HI Hk2) as [Hd2 _].
      cbn [heap Sort Sort_from] in *. rewrite Hd1, Hd2 in Hpath. subst k2.
      cbn [DirMap Sort Sort_from] in *. congruence.
    + rewrite Sort_Dirs. by apply pointers_NoDup.
  - unfold ranked. rewrite length_fmap, Sort_Dirs, length_fmap.
    apply length_map_to_list.
Qed.

Lemma report_is_the_map_witness :
  (∀ n path,
     Ranked n path
     ∈ ranked (Sort (AddFile (AddFile (NewBloat false) "b/file1" 100) "c/file2" 50))
     ↔ totalBytes (AddFile (AddFile (NewBloat false) "b/file1" 100) "c/file2" 50) path
       = Some n)
  ∧ NoDup (ranked (Sort (AddFile (AddFile (NewBloat false) "b/file1" 100)
                                 "c/file2" 50)))
  ∧ length (ranked (Sort (AddFile (AddFile (NewBloat false) "b/file1" 100)
                                  "c/file2" 50)))
    = size (DirMap (AddFile (AddFile (NewBloat false) "b/file1" 100) "c/file2" 50)).
Proof.
  apply report_is_the_map. apply Inv_AddFile, Inv_AddFile, Inv_NewBloat.
Defined.

(** X5. [Dirs] shares its records with the map: [AddFile] does not touch
    [Dirs], and when it runs after [Sort] every line that [Report] would
    print still tells the total that the directory has after the
    addition. *)
Theorem report_follows_later_additions b path size :
  Inv b → int64 size →
  Dirs (AddFile (Sort b) path size) = Dirs (Sort b)
  ∧ ∀ n dir, Ranked n dir ∈ ranked (AddFile (Sort b) path size) →
      totalBytes (AddFile (Sort b) path size) dir = Some n.
Proof.
  intros HI Hs. split; [apply Dirs_AddFile|].
  intros n dir. apply ranked_true.
  - by apply Inv_AddFile.
  - rewrite AddFile_ancestors. apply Dirs_live_fold_AddBloat, Dirs_live_Sort.
Qed.

Lemma report_follows_later_additions_witness :
  Dirs (AddFile (Sort (AddFile (NewBloat false) "b/file1" 100)) "b/file2" 7)
  = Dirs (Sort (AddFile (NewBloat false) "b/file1" 100))
  ∧ ∀ n dir,
      Ranked n dir
      ∈ ranked (AddFile (Sort (AddFile (NewBloat false) "b/file1" 100)) "b/file2" 7) →
      totalBytes (AddFile (Sort (AddFile (NewBloat false) "b/file1" 100)) "b/file2" 7)
                 dir = Some n.
Proof.
  apply report_follows_later_additions;
    [apply Inv_AddFile, Inv_NewBloat|unfold int64; lia].
Defined.

(** * Further facts about the walk *)

Lemma existsb_Permutation {A} (f : A → bool) l1 l2 :
  l1 ≡ₚ l2 → existsb f l1 = existsb f l2.
Proof.
  induction 1 as [|x l1 l2 _ IH|x y l|l1 l2 l3 _ IH1 _ IH2]; cbn [existsb].
  - done.
  - by rewrite IH.
  - by destruct (f x), (f y).
  - by rewrite IH1.
Qed.

Lemma sizes_below_Permutation absmode k l1 l2 :
  l1 ≡ₚ l2 → sizes_below absmode k l1 = sizes_below absmode k l2.
Proof.
  induction 1 as [|x l1 l2 _ IH|x y l|l1 l2 l3 _ IH1 _ IH2];
    rewrite ?sizes_below_cons.
  - done.
  - by rewrite IH.
  - lia.
  - by rewrite IH1.
Qed.

Lemma sizes_below_app absmode k l1 l2 :
  sizes_below absmode k (l1 ++ l2)
  = (sizes_below absmode k l1 + sizes_below absmode k l2)%Z.
Proof.
  induction l1 as [|v l1 IH].
  { cbn [app]. change (sizes_below absmode k []) with 0%Z. lia. }
  cbn [app]. rewrite !sizes_below_cons, IH. lia.
Qed.

Lemma tally_app l1 l2 b : tally (l1 ++ l2) b = tally l2 (tally l1 b).
Proof. apply fold_left_app. Qed.

(** What holds of the world before a visit and is kept by the walk
    function and by a line on the error stream holds after the scans. *)
Section kept.
Variable P : World → Prop.
Hypothesis P_walkFn : ∀ v w w' r, walkFn v w = (w', r) → P w → P w'.
Hypothesis P_eprint : ∀ l w, P w → P (eprint l w).1.
Variable fs : string → list Visit.

Lemma Walk_kept calls : ∀ w w' r, Walk calls walkFn w = (w', r) → P w → P w'.
Proof.
  induction calls as [|v calls IH]; intros w w' r; cbn [Walk].
  { run_M. by intros [= <- <-]. }
  unfold mbind, M_bind. destruct (walkFn v w) as [w1 o] eqn:Hv.
  intros H Hw. pose proof (P_walkFn _ _ _ _ Hv Hw) as Hw1.
  destruct o as [[e|]|p].
  - revert H. run_M. by intros [= <- <-].
  - by eapply IH.
  - by injection H as <- <-.
Qed.

Lemma Scan_kept basedir w w' r : Scan fs basedir w = (w', r) → P w → P w'.
Proof.
  unfold Scan, mbind, M_bind.
  destruct (Walk (fs basedir) walkFn w) as [w1 o] eqn:Hw. intros H Hp.
  pose proof (Walk_kept _ _ _ _ Hw Hp) as Hp1.
  destruct o as [[e|]|p].
  - pose proof (P_eprint (ErrorScanning basedir e) _ Hp1) as Hp2.
    rewrite H in Hp2. exact Hp2.
  - revert H. run_M. by intros [= <- <-].
  - by injection H as <- <-.
Qed.

Lemma scan_all_kept args : ∀ w w' r, scan_all fs args w = (w', r) → P w → P w'.
Proof.
  induction args as [|arg args IH]; intros w w' r; cbn [scan_all].
  { run_M. by intros [= <- <-]. }
  unfold mbind, M_bind. destruct (Scan fs arg w) as [w1 o] eqn:Hs.
  intros H Hp. pose proof (Scan_kept _ _ _ _ Hs Hp) as Hp1.
  destruct o as [[]|p]; [by eapply IH|by injection H as <- <-].
Qed.

End kept.

Lemma walkFn_cases v w :
  (∃ detail, v_err v = Some detail ∧ walkFn v w = (w, Returns (Some detail)))
  ∨ (∃ fdir, v_err v = None ∧ key (Abs (bloat w)) v = Resolved fdir
       ∧ walkFn v w
         = ({| bloat := AddFile (bloat w) fdir (Size (v_info v));
               stdout := stdout w ++ [Progress (v_path v)];
               stderr := stderr w |}, Returns None))
  ∨ (∃ perr, v_err v = None ∧ key (Abs (bloat w)) v = Failed perr
       ∧ walkFn v w
         = ({| bloat := bloat w;
               stdout := stdout w ++ [Progress (v_path v)];
               stderr := stderr w ++ [CantProcess (v_path v) perr] |},
            Panics None)).
Proof.
  destruct (v_err v) as [detail|] eqn:He.
  { left. exists detail. split; [done|]. by apply walkFn_error. }
  destruct (key (Abs (bloat w)) v) as [fdir|perr] eqn:Hk; right.
  - left. exists fdir. by rewrite (walkFn_resolved _ _ _ He Hk).
  - right. exists perr. by rewrite (walkFn_failed _ _ _ He Hk).
Qed.

Lemma walkFn_Abs a v w w' r :
  walkFn v w = (w', r) → Abs (bloat w) = a → Abs (bloat w') = a.
Proof.
  destruct (walkFn_cases v w) as [(d & _ & ->)|[(f & _ & _ & ->)|(e & _ & _ & ->)]];
    intros [= <- <-]; cbn [bloat]; [done| |done].
  by rewrite Abs_AddFile.
Qed.

Lemma scan_all_Abs fs a args w w' r :
  scan_all fs args w = (w', r) → Abs (bloat w) = a → Abs (bloat w') = a.
Proof.
  apply (scan_all_kept (λ w, Abs (bloat w) = a)).
  - apply walkFn_Abs.
  - done.
Qed.

(** The error stream along the scans. *)
Lemma Walk_stderr calls : ∀ w w' r,
  Walk calls walkFn w = (w', r) →
  match r with
  | Returns _ => stderr w' = stderr w
  | Panics _ => ∃ path perr, stderr w' = stderr w ++ [CantProcess path perr]
  end.
Proof.
  induction calls as [|v calls IH]; intros w w' r; cbn [Walk].
  { run_M. by intros [= <- <-]. }
  unfold mbind, M_bind.
  destruct (walkFn_cases v w) as [(d & _ & ->)|[(f & _ & _ & ->)|(e & _ & _ & ->)]].
  - run_M. by intros [= <- <-].
  - intros H. apply IH in H. exact H.
  - intros [= <- <-]. cbn [stderr]. by eexists _, _.
Qed.

Section stderr_facts.
Variable fs : string → list Visit.

Lemma Scan_stderr basedir w w' r :
  Scan fs basedir w = (w', r) →
  match r with
  | Returns _ => stderr w' = stderr w
                 ∨ ∃ werr, stderr w' = stderr w ++ [ErrorScanning basedir werr]
  | Panics _ => ∃ path perr, stderr w' = stderr w ++ [CantProcess path perr]
  end.
Proof.
  unfold Scan, mbind, M_bind.
  destruct (Walk (fs basedir) walkFn w) as [w1 o] eqn:Hw.
  apply Walk_stderr in Hw. destruct o as [[e|]|p].
  - unfold eprint. intros [= <- <-]. cbn [stderr]. right. exists e. by rewrite Hw.
  - run_M. intros [= <- <-]. by left.
  - by intros [= <- <-].
Qed.

Lemma scan_all_stderr args : ∀ w w' r,
  scan_all fs args w = (w', r) →
  ∃ errs, stderr w' = stderr w ++ errs ∧ length errs ≤ length args
    ∧ match r with
      | Returns _ => Forall (is_scan_error args) errs
      | Panics _ => ∃ front path perr,
          errs = front ++ [CantProcess path perr]
          ∧ Forall (is_scan_error args) front
      end.
Proof.
  induction args as [|arg args IH]; intros w w' r; cbn [scan_all].
  { run_M. intros [= <- <-]. exists []. by rewrite app_nil_r. }
  unfold mbind, M_bind. destruct (Scan fs arg w) as [w1 o] eqn:Hs.
  apply Scan_stderr in Hs.
  assert (∀ errs, Forall (is_scan_error args) errs
                  → Forall (is_scan_error (arg :: args)) errs) as Hmono.
  { intros errs He. eapply Forall_impl; [exact He|]. intros l (a & d & Ha & ->).
    exists a, d. split; [by right|done]. }
  destruct o as [[]|p].
  - intros H. destruct (IH _ _ _ H) as (errs & Herr & Hlen & Hr).
    destruct Hs as [Hs|[d Hs]]; rewrite Hs in Herr.
    + exists errs. split; [done|]. split; [simpl; lia|].
      destruct r as [u|pv]; [by apply Hmono|].
      destruct Hr as (front & path & perr & -> & Hf).
      exists front, path, perr. split; [done|by apply Hmono].
    + exists (ErrorScanning arg d :: errs). rewrite <- app_assoc in Herr.
      split; [done|]. split; [simpl; lia|].
      assert (is_scan_error (arg :: args) (ErrorScanning arg d)) as Hd
        by (exists arg, d; split; [by left|done]).
      destruct r as [u|pv]; [constructor; [done|by apply Hmono]|].
      destruct Hr as (front & path & perr & -> & Hf).
      exists (ErrorScanning arg d :: front), path, perr.
      split; [done|]. constructor; [done|by apply Hmono].
  - intros [= <- <-]. destruct Hs as (path & perr & Hs).
    exists [CantProcess path perr]. split; [done|]. split; [simpl; lia|].
    exists [], path, perr. by split.
Qed.

Lemma scan_all_fine args : ∀ w,
  Forall (λ arg, Forall (fine (Abs (bloat w))) (fs arg)) args →
  scan_all fs args w
  = ({| bloat := tally (concat (fs <$> args)) (bloat w);
        stdout := stdout w ++ (Progress ∘ v_path <$> concat (fs <$> args));
        stderr := stderr w |}, Returns tt).
Proof.
  induction args as [|arg args IH]; intros w Hf.
  { cbn. by rewrite app_nil_r, World_eta. }
  apply Forall_cons in Hf as [Harg Hargs].
  cbn [scan_all]. unfold mbind, M_bind. rewrite Scan_fine by done.
  rewrite IH by (cbn [bloat]; by rewrite Abs_tally).
  cbn [bloat stdout stderr fmap list_fmap concat].
  by rewrite tally_app, fmap_app, <- app_assoc.
Qed.

End stderr_facts.

Lemma below_visit_at absmode root it ds :
  Forall name root → Forall name (i_names it) → Forall name ds →
  below absmode (key_at absmode root ds) (visit_at root it)
  = bool_decide (strictly_below ds (i_names it)).
Proof.
  intros Hr Hit Hds. unfold below, key, key_at, visit_at, strictly_below.
  destruct absmode; cbn [v_Abs v_Rel]; apply bool_decide_ext.
  - by apply absKey_ancestor.
  - by apply relKey_ancestor.
Qed.

Lemma sum_sizes_cons it items :
  sum_sizes (it :: items) = (Size (i_info it) + sum_sizes items)%Z.
Proof. reflexivity. Qed.

(** On a tree, the visits whose size goes to a directory are the items
    strictly below it. *)
Lemma below_tree absmode root ds items :
  Forall name root → Forall name ds →
  Forall (λ it, Forall name (i_names it)) items →
  existsb (below absmode (key_at absmode root ds)) (visit_at root <$> items)
  = match filter (λ it, strictly_below ds (i_names it)) items with
    | [] => false
    | _ => true
    end
  ∧ sizes_below absmode (key_at absmode root ds) (visit_at root <$> items)
    = sum_sizes (filter (λ it, strictly_below ds (i_names it)) items).
Proof.
  intros Hr Hds. induction 1 as [|it items Hit _ [IH1 IH2]]; [done|].
  rewrite fmap_cons, sizes_below_cons. cbn [existsb].
  rewrite below_visit_at, IH1, IH2 by done.
  destruct (decide (strictly_below ds (i_names it))) as [Hb|Hb].
  - rewrite filter_cons_True, bool_decide_eq_true_2 by done. by split.
  - rewrite filter_cons_False, bool_decide_eq_false_2 by done.
    split; [done|lia].
Qed.

Lemma sum_sizes_nonneg items :
  Forall (λ it, (0 ≤ Size (i_info it))%Z) items → (0 ≤ sum_sizes items)%Z.
Proof.
  induction 1 as [|it items Hit _ IH]; [done|]. rewrite sum_sizes_cons. lia.
Qed.

Lemma visit_at_fine absmode root it : fine absmode (visit_at root it).
Proof. split; [done|]. destruct absmode; cbn; eauto. Qed.

(** * Further properties of the scan *)

(** X6. The order in which the walk reports the entries does not matter:
    two walks of the same entries, all going through, leave the same total
    for every directory. *)
Theorem walk_order_is_irrelevant fs1 fs2 basedir w :
  fs1 basedir ≡ₚ fs2 basedir →
  Inv (bloat w) →
  Forall (fine (Abs (bloat w))) (fs1 basedir) →
  Forall (λ v, int64 (Size (v_info v))) (fs1 basedir) →
  ∃ w1 w2,
    Scan fs1 basedir w = (w1, Returns tt)
    ∧ Scan fs2 basedir w = (w2, Returns tt)
    ∧ ∀ k, totalBytes (bloat w1) k = totalBytes (bloat w2) k.
Proof.
  intros Hperm HI Hf Hs.
  assert (Forall (fine (Abs (bloat w))) (fs2 basedir)) as Hf2 by (by rewrite <- Hperm).
  assert (Forall (λ v, int64 (Size (v_info v))) (fs2 basedir)) as Hs2
    by (by rewrite <- Hperm).
  do 2 eexists. split; [by apply Scan_fine|]. split; [by apply Scan_fine|].
  intros k. cbn [bloat]. rewrite !totalBytes_tally by done.
  by rewrite (existsb_Permutation _ _ _ Hperm),
             (sizes_below_Permutation _ _ _ _ Hperm).
Qed.

Lemma walk_order_is_irrelevant_witness :
  ∃ w1 w2,
    Scan fs_a "/a" (fresh false) = (w1, Returns tt)
    ∧ Scan fs_a_rev "/a" (fresh false) = (w2, Returns tt)
    ∧ ∀ k, totalBytes (bloat w1) k = totalBytes (bloat w2) k.
Proof.
  apply walk_order_is_irrelevant.
  - apply Permutation_rev.
  - apply Inv_NewBloat.
  - repeat constructor; by eexists.
  - repeat constructor; vm_compute; (discriminate || reflexivity).
Defined.

(** X7. After the scan of a tree, in either mode, the total of a directory
    at or below the root is the [int64] sum of the sizes of the entries
    strictly below it, files and directories alike, and there is no record
    for a directory with nothing below it. When those sizes are not
    negative and add up to less than [2^63], the total is their sum. *)
Theorem directory_total_is_sum_beneath fs basedir absmode root items ds :
  fs basedir = visit_at root <$> items →
  Forall name root → Forall name ds →
  Forall (λ it, Forall name (i_names it)) items →
  Forall (λ it, int64 (Size (i_info it))) items →
  let under := filter (λ it, strictly_below ds (i_names it)) items in
  ∃ w', Scan fs basedir (fresh absmode) = (w', Returns tt)
    ∧ totalBytes (bloat w') (key_at absmode root ds)
      = match under with
        | [] => None
        | _ => Some (wrap64 (sum_sizes under))
        end
    ∧ (Forall (λ it, (0 ≤ Size (i_info it))%Z) under →
       (sum_sizes under < 2 ^ 63)%Z →
       wrap64 (sum_sizes under) = sum_sizes under).
Proof.
  intros Hfs Hr Hds Hn Hs under.
  assert (Forall (fine absmode) (fs basedir)) as Hfine.
  { rewrite Hfs. apply Forall_fmap, Forall_true. intros it. apply visit_at_fine. }
  assert (Forall (λ v, int64 (Size (v_info v))) (fs basedir)) as Hsize.
  { rewrite Hfs. by apply Forall_fmap. }
  eexists. split; [by apply Scan_fine|]. split.
  - cbn [bloat fresh]. rewrite totalBytes_tally; [|apply Inv_NewBloat|done..].
    cbn [Abs NewBloat]. rewrite Hfs.
    destruct (below_tree absmode root ds items Hr Hds Hn) as [-> ->].
    fold under. destruct under; [done|]. by rewrite Z.add_0_l.
  - intros Hpos Hlt. apply wrap64_id. pose proof (sum_sizes_nonneg _ Hpos).
    unfold int64. lia.
Qed.

Lemma directory_total_is_sum_beneath_witness :
  ∃ w', Scan fs_items "/a" (fresh false) = (w', Returns tt)
    ∧ totalBytes (bloat w') "." = Some 8342%Z
    ∧ wrap64 (sum_sizes (filter (λ it, strictly_below [] (i_names it)) items_a))
      = sum_sizes (filter (λ it, strictly_below [] (i_names it)) items_a).
Proof.
  assert (∀ s, nm s ≠ [] → slashes (nm s) = 0 →
               nm s ≠ nm "." → nm s ≠ nm ".." → name (nm s)) as Hname
    by (by intros s ????).
  destruct (directory_total_is_sum_beneath fs_items "/a" false [nm "a"] items_a [])
    as (w' & Hscan & Htotal & Hexact).
  - reflexivity.
  - repeat constructor; try apply Hname; (discriminate || reflexivity).
  - constructor.
  - repeat constructor; try apply Hname; (discriminate || reflexivity).
  - repeat constructor; vm_compute; (discriminate || reflexivity).
  - exists w'. split; [exact Hscan|]. split; [exact Htotal|].
    apply Hexact; [|vm_compute; reflexivity].
    vm_compute. repeat constructor; discriminate.
Defined.

(** X8. A root given twice is counted twice: after the two scans every
    directory holds its total of one scan added to itself. *)
Theorem repeated_root_counts_twice fs basedir absmode k :
  Forall (fine absmode) (fs basedir) →
  Forall (λ v, int64 (Size (v_info v))) (fs basedir) →
  ∃ w1 w2,
    Scan fs basedir (fresh absmode) = (w1, Returns tt)
    ∧ scan_all fs [basedir; basedir] (fresh absmode) = (w2, Returns tt)
    ∧ totalBytes (bloat w2) k = (λ t, add64 t t) <$> totalBytes (bloat w1) k.
Proof.
  intros Hf Hs. do 2 eexists. split; [by apply Scan_fine|].
  split.
  { apply scan_all_fine. by repeat constructor. }
  cbn [bloat fresh fmap list_fmap concat]. rewrite app_nil_r.
  assert (Forall (fine absmode) (fs basedir ++ fs basedir)) as Hf2
    by (by apply Forall_app).
  assert (Forall (λ v, int64 (Size (v_info v))) (fs basedir ++ fs basedir)) as Hs2
    by (by apply Forall_app).
  rewrite !totalBytes_tally by (done || apply Inv_NewBloat).
  cbn [Abs NewBloat]. rewrite existsb_app, sizes_below_app, orb_diag.
  destruct (existsb (below absmode k) (fs basedir)); [|done].
  cbn [fmap option_fmap option_map]. f_equal. unfold add64, bytes_of.
  change (totalBytes (NewBloat absmode) k) with (@None Z). cbn [default].
  rewrite !Z.add_0_l.
  rewrite wrap64_add_l, (Z.add_comm _ (wrap64 _)), wrap64_add_l. done.
Qed.

Lemma repeated_root_counts_twice_witness :
  ∃ w1 w2,
    Scan fs_a "/a" (fresh true) = (w1, Returns tt)
    ∧ scan_all fs_a ["/a"; "/a"] (fresh true) = (w2, Returns tt)
    ∧ totalBytes (bloat w2) "/a/b" = (λ t, add64 t t) <$> totalBytes (bloat w1) "/a/b".
Proof.
  apply repeated_root_counts_twice.
  - repeat constructor; by eexists.
  - repeat constructor; vm_compute; (discriminate || reflexivity).
Defined.

(** X9. [main] prints the usage text, and nothing else, exactly when it has
    no argument or its first argument is [--help], [-h] or [/?]. In every
    other run the usage text is not printed: a help flag in a later
    position is scanned as a root like any other argument. *)
Theorem help_only_in_first_position fs prog args :
  (¬ scans args →
   main fs prog args boot
   = ({| bloat := bloat boot; stdout := [Usage prog]; stderr := [] |}, Returns tt))
  ∧ (scans args → Usage prog ∉ stdout (main fs prog args boot).1).
Proof.
  split.
  - intros Hno. destruct args as [|helpp args]; [done|]. unfold main.
    destruct (decide (helpp = "--help" ∨ helpp = "-h" ∨ helpp = "/?")) as [Hh|Hh].
    + by rewrite bool_decide_eq_true_2.
    + by destruct Hno.
  - intros Hs. rewrite main_scans by done.
    change (stdout boot) with (@nil stdout_line).
    change (stderr boot) with (@nil stderr_line). fold (start args).
    destruct (scan_all fs args (start args)) as [w' o] eqn:Hrun.
    pose proof (scan_all_progress _ _ _ _ _ Hrun (Forall_nil_2 _)) as Hp.
    assert (Usage prog ∉ stdout w') as Hw'.
    { intros Hin. rewrite Forall_forall in Hp. by destruct (Hp _ Hin). }
    destruct o as [[]|p]; cbn [fst stdout]; [|done].
    intros [Hin|Hin]%elem_of_app; [done|].
    unfold ranked in Hin. by apply list_elem_of_fmap in Hin as (? & ? & _).
Qed.

Lemma help_only_in_first_position_witness :
  main fs_a "bloat" ["-h"; "/a"] boot
  = ({| bloat := bloat boot; stdout := [Usage "bloat"]; stderr := [] |}, Returns tt)
  ∧ Usage "bloat" ∉ stdout (main fs_a "bloat" ["/a"; "-h"] boot).1.
Proof.
  split.
  - apply (help_only_in_first_position fs_a "bloat" ["-h"; "/a"]).
    simpl. intros H. apply H. right. by left.
  - apply (help_only_in_first_position fs_a "bloat" ["/a"; "-h"]).
    simpl. intros [H|[H|H]]; discriminate H.
Defined.

(** X10. The mode is fixed by the number of arguments and never changes:
    however a scanning run of [main] ends, by return or by panic, the
    accumulator is absolute exactly when more than one root was given. *)
Theorem mode_is_fixed fs prog args w' r :
  scans args →
  main fs prog args boot = (w', r) →
  Abs (bloat w') = (1 <? length args)%nat.
Proof.
  intros Hs. rewrite main_scans by done.
  change (stdout boot) with (@nil stdout_line).
  change (stderr boot) with (@nil stderr_line). fold (start args).
  destruct (scan_all fs args (start args)) as [w1 o] eqn:Hrun.
  pose proof (scan_all_Abs _ _ _ _ _ _ Hrun eq_refl) as Ha.
  destruct o as [[]|p]; by intros [= <- <-].
Qed.

Lemma mode_is_fixed_witness :
  Abs (bloat (main fs_rs "bloat" ["/a"; "/r"] boot).1) = (1 <? length ["/a"; "/r"])%nat.
Proof.
  apply (mode_is_fixed fs_rs "bloat" ["/a"; "/r"] _
           (main fs_rs "bloat" ["/a"; "/r"] boot).2).
  - simpl. intros [H|[H|H]]; discriminate H.
  - by destruct (main fs_rs "bloat" ["/a"; "/r"] boot).
Defined.

(** X11. A run of [main] writes at most one line per root to the error
    stream. When it returns, each line is the [error scanning] line of one
    of the roots; when it panics, the last line is the [can't process]
    line of the entry that did not resolve and the lines before it are
    [error scanning] lines of roots. *)
Theorem one_error_line_per_root fs prog args w' r :
  scans args →
  main fs prog args boot = (w', r) →
  length (stderr w') ≤ length args
  ∧ match r with
    | Returns _ => Forall (is_scan_error args) (stderr w')
    | Panics _ => ∃ front path perr,
        stderr w' = front ++ [CantProcess path perr]
        ∧ Forall (is_scan_error args) front
    end.
Proof.
  intros Hs. rewrite main_scans by done.
  change (stdout boot) with (@nil stdout_line).
  change (stderr boot) with (@nil stderr_line). fold (start args).
  destruct (scan_all fs args (start args)) as [w1 o] eqn:Hrun.
  destruct (scan_all_stderr _ _ _ _ _ Hrun) as (errs & Herr & Hlen & Ho).
  cbn [start stderr app] in Herr.
  destruct o as [[]|p]; intros [= <- <-]; cbn [stderr]; rewrite Herr; done.
Qed.

Lemma one_error_line_per_root_witness :
  length (stderr (main fs_rs "bloat" ["/s"; "/r"; "/a"] boot).1)
  ≤ length ["/s"; "/r"; "/a"]
  ∧ ∃ front path perr,
      stderr (main fs_rs "bloat" ["/s"; "/r"; "/a"] boot).1
      = front ++ [CantProcess path perr]
      ∧ Forall (is_scan_error ["/s"; "/r"; "/a"]) front.
Proof.
  apply (one_error_line_per_root fs_rs "bloat" ["/s"; "/r"; "/a"] _ (Panics None)).
  - simpl. intros [H|[H|H]]; discriminate H.
  - vm_compute. reflexivity.
Defined.

(** X12. A run of [main] in which every visit of every root goes through:
    the accumulator is the sorted sum of the visits of all the roots in the
    order of the arguments, the output is the progress line of every
    visit, in order, followed by the report, and nothing is written to the
    error stream. *)
Theorem clean_run fs prog args :
  scans args →
  Forall (λ arg, Forall (fine (1 <? length args)%nat) (fs arg)) args →
  main fs prog args boot
  = ({| bloat := Sort (tally (concat (fs <$> args))
                             (NewBloat (1 <? length args)%nat));
        stdout := (Progress ∘ v_path <$> concat (fs <$> args))
                  ++ ranked (Sort (tally (concat (fs <$> args))
                                         (NewBloat (1 <? length args)%nat)));
        stderr := [] |}, Returns tt).
Proof.
  intros Hs Hf. rewrite main_scans by done.
  change (stdout boot) with (@nil stdout_line).
  change (stderr boot) with (@nil stderr_line).
  by rewrite scan_all_fine.
Qed.

Lemma clean_run_witness :
  main fs_a "bloat" ["/a"] boot
  = ({| bloat := Sort (tally (concat (fs_a <$> ["/a"])) (NewBloat false));
        stdout := (Progress ∘ v_path <$> concat (fs_a <$> ["/a"]))
                  ++ ranked (Sort (tally (concat (fs_a <$> ["/a"])) (NewBloat false)));
        stderr := [] |}, Returns tt).
Proof.
  apply (clean_run fs_a "bloat" ["/a"]).
  - simpl. intros [H|[H|H]]; discriminate H.
  - repeat constructor; by eexists.
Defined.
